(** * A shallow embedding of the interactive shell of [Project2/main.go]

    The development follows the source file top-down:

    - [GoStrings]: the byte-level model of the [strings] functions the
      dispatcher calls ([TrimSpace], [Fields], [Join]);
    - [Chan]: the buffered exit channel;
    - the interfaces the program is written against ([Writer], [Reader],
      [Platform]);
    - the program itself ([printPrompt], [handleInput], the built-ins,
      the body of [runLoop]);
    - the theorems. *)

From Stdlib Require Import Strings.String Strings.Ascii.
From Stdlib Require Import Lists.List Bool.Bool Arith.Arith Arith.Wf_nat Lia.
Import ListNotations.

Open Scope list_scope.
Open Scope string_scope.

(** ** Go strings

    A Go string is a sequence of bytes; [string] (a list of [ascii], that
    is of 8-bit bytes) is taken as it is.  Text is UTF-8 encoded. *)

Module GoStrings.

Definition byte (n : nat) : ascii := ascii_of_nat n.

Definition rune1 (a : nat) : string := String (byte a) "".
Definition rune2 (a b : nat) : string := String (byte a) (rune1 b).
Definition rune3 (a b c : nat) : string := String (byte a) (rune2 b c).

(** The line feed, Go's ['\n']. *)
Definition nl : string := rune1 10.

(** The UTF-8 encodings of the code points for which [unicode.IsSpace]
    answers true: U+0009..U+000D, U+0020, U+0085, U+00A0, U+1680,
    U+2000..U+200A, U+2028, U+2029, U+202F, U+205F, U+3000. *)
Definition whiteSpace : list string :=
  [ rune1 9; rune1 10; rune1 11; rune1 12; rune1 13; rune1 32;
    rune2 0xC2 0x85; rune2 0xC2 0xA0;
    rune3 0xE1 0x9A 0x80;
    rune3 0xE2 0x80 0x80; rune3 0xE2 0x80 0x81; rune3 0xE2 0x80 0x82;
    rune3 0xE2 0x80 0x83; rune3 0xE2 0x80 0x84; rune3 0xE2 0x80 0x85;
    rune3 0xE2 0x80 0x86; rune3 0xE2 0x80 0x87; rune3 0xE2 0x80 0x88;
    rune3 0xE2 0x80 0x89; rune3 0xE2 0x80 0x8A;
    rune3 0xE2 0x80 0xA8; rune3 0xE2 0x80 0xA9; rune3 0xE2 0x80 0xAF;
    rune3 0xE2 0x81 0x9F;
    rune3 0xE3 0x80 0x80 ].

(** The bytes 0x80..0xBF, which UTF-8 uses for the second and later bytes
    of a rune and never for the first. *)
Definition continuation (c : ascii) : bool :=
  (128 <=? nat_of_ascii c)%nat && (nat_of_ascii c <=? 191)%nat.

(** A text that, put after another one, starts a rune of its own: it is
    empty or its first byte is not a continuation byte. *)
Definition cleanStart (x : string) : Prop :=
  match x with
  | "" => True
  | String d _ => continuation d = false
  end.

(** [strings.HasPrefix]. *)
Fixpoint HasPrefix (s p : string) {struct p} : bool :=
  match p with
  | "" => true
  | String a p' =>
      match s with
      | "" => false
      | String b s' => Ascii.eqb a b && HasPrefix s' p'
      end
  end.

(** Width in bytes of the white space rune that starts [s], [0] when [s]
    does not start with one.

    Go decodes [s] rune by rune.  A decoding step consumes one byte (an
    ASCII byte, or a byte of an ill-formed sequence, which decodes to
    U+FFFD) or a well-formed multi-byte sequence, whose bytes after the
    first are continuation bytes (0x80..0xBF).  Every encoding in
    [whiteSpace] starts with a byte that is not a continuation byte, so a
    position where one of them starts is always a position where Go starts
    decoding a rune: looking for the encodings byte-wise finds exactly the
    runes Go classifies as space. *)
Definition spaceWidth (s : string) : nat :=
  match find (HasPrefix s) whiteSpace with
  | Some p => String.length p
  | None => 0
  end.

(** The fields gathered so far end with the pending field [cur], when it
    is not empty (Go: [start >= 0]). *)
Definition flush (cur : string) : list string :=
  match cur with
  | "" => []
  | _ => [cur]
  end.

(** The loop of [strings.FieldsFunc(s, unicode.IsSpace)]: [skip] counts
    the bytes of the current white space rune still to pass over, [cur] is
    the field being read. *)
Fixpoint fieldsLoop (skip : nat) (cur : string) (s : string) : list string :=
  match s with
  | "" => flush cur
  | String c s' =>
      match skip with
      | S k => fieldsLoop k cur s'
      | 0 =>
          match spaceWidth s with
          | S k => (flush cur ++ fieldsLoop k "" s')%list
          | 0 => fieldsLoop 0 (cur ++ String c "") s'
          end
      end
  end.

(** [strings.Fields]. *)
Definition Fields (s : string) : list string := fieldsLoop 0 "" s.

(** Whether [s] is made of white space runes only. *)
Fixpoint blankLoop (skip : nat) (s : string) : bool :=
  match s with
  | "" => true
  | String c s' =>
      match skip with
      | S k => blankLoop k s'
      | 0 =>
          match spaceWidth s with
          | S k => blankLoop k s'
          | 0 => false
          end
      end
  end.

Definition isBlank (s : string) : bool := blankLoop 0 s.

(** [strings.TrimLeftFunc(s, unicode.IsSpace)]: the text from the first
    rune that is not white space. *)
Fixpoint trimLeftLoop (skip : nat) (s : string) : string :=
  match s with
  | "" => ""
  | String c s' =>
      match skip with
      | S k => trimLeftLoop k s'
      | 0 =>
          match spaceWidth s with
          | S k => trimLeftLoop k s'
          | 0 => s
          end
      end
  end.

Definition TrimLeft (s : string) : string := trimLeftLoop 0 s.

(** [strings.TrimRightFunc(s, unicode.IsSpace)]: the text up to the last
    rune that is not white space, that is, every byte after which
    something else than white space is left. *)
Fixpoint TrimRight (s : string) : string :=
  match s with
  | "" => ""
  | String c s' => if isBlank s then "" else String c (TrimRight s')
  end.

(** [strings.TrimSpace]. *)
Definition TrimSpace (s : string) : string := TrimRight (TrimLeft s).

(** No byte of [cur], read in front of [s], starts a white space rune. *)
Fixpoint solidIn (cur s : string) : bool :=
  match cur with
  | "" => true
  | String c q => (spaceWidth (cur ++ s) =? 0)%nat && solidIn q s
  end.

(** A text that holds no white space rune. *)
Definition solid (t : string) : bool := solidIn t "".

(** [strings.Join]. *)
Fixpoint Join (elems : list string) (sep : string) : string :=
  match elems with
  | [] => ""
  | [x] => x
  | x :: rest => x ++ sep ++ Join rest sep
  end.

End GoStrings.

Import GoStrings.

(** ** Errors, channels and the interfaces of the program *)

(** A Go [error] is represented by its message ([err.Error()]); the [nil]
    error is [None]. *)
Definition error : Type := string.

(** A call that returns [(value, err)]. *)
Inductive result (A : Type) : Type :=
| Ok (a : A)
| Err (e : error).
Arguments Ok {A} a.
Arguments Err {A} e.

(** The exit channel, a [chan struct{}]: its elements carry no data, so
    the queue is the number of elements it holds.  The program has one
    goroutine, so a send that cannot proceed never proceeds. *)
Module Chan.

Record t : Type := mk { cap : nat; len : nat }.

(** [make(chan struct{}, n)] *)
Definition make (n : nat) : t := {| cap := n; len := 0 |}.

(** [ch <- struct{}{}]: [None] when the send blocks. *)
Definition send (ch : t) : option t :=
  if Nat.ltb (len ch) (cap ch) then Some {| cap := cap ch; len := S (len ch) |}
  else None.

(** [select { case <-ch: ... default: ... }]: [Some] with the channel
    after the receive when an element was waiting, [None] for the
    [default] branch. *)
Definition tryRecv (ch : t) : option t :=
  match len ch with
  | S n => Some {| cap := cap ch; len := n |}
  | 0 => None
  end.

End Chan.

(** [io.Writer]: [Write] returns the writer after the call and the error
    of the call. *)
Class Writer (W : Type) : Type :=
  { Write : W -> string -> W * option error }.

(** The line reader [bufio.NewReader(r)] over an [io.Reader]:
    [ReadString delim] returns the text read, the error of the call and
    the reader after the call. *)
Class Reader (R : Type) : Type :=
  { ReadString : R -> ascii -> string * option error * R }.

(** A call that waits for something outside the program: it comes back
    with a value, or the wait never ends. *)
Inductive waited (A : Type) : Type :=
| Back (a : A)
| Forever.
Arguments Back {A} a.
Arguments Forever {A}.

(** What the program asks of the packages [os], [os/user] and [os/exec].
    [OS] is the state of the process and of the machine around it.

    - [user_Current]: [user.Current()], of which the program uses the
      [Username];
    - [os_env]: the environment of the process, name and value of every
      variable, in the order of [os.Environ()];
    - [os_Mkdir dir]: [os.Mkdir(dir, os.ModePerm)];
    - [exec_Run name arg]: [exec.Command(name, arg...)] started with the
      standard output and standard error of the process and waited for
      with [cmd.Run()]: [Back] with the error of [Run] and the system
      the command left, or [Forever] when the command never exits. *)
Class Platform (OS : Type) : Type :=
  { user_Current : OS -> result string;
    os_Getwd : OS -> result string;
    os_Chdir : string -> OS -> option error * OS;
    os_env : OS -> list (string * string);
    os_Mkdir : string -> OS -> option error * OS;
    os_Remove : string -> OS -> option error * OS;
    exec_Run : string -> list string -> OS -> waited (option error * OS) }.

(** [os.Environ()]: the variables in the form [key=value]. *)
Definition os_Environ {OS : Type} `{Platform OS} (os : OS) : list string :=
  map (fun kv => fst kv ++ "=" ++ snd kv) (os_env os).

(** [os.LookupEnv(key)] *)
Definition os_LookupEnv {OS : Type} `{Platform OS} (key : string) (os : OS)
  : option string :=
  option_map snd (find (fun kv => String.eqb (fst kv) key) (os_env os)).

(** The variable [name] is set to [value] in the environment [env]:
    [env] has the entry, and no entry for [name] before it. *)
Definition isSet (env : list (string * string)) (name value : string) : Prop :=
  exists before after,
    env = (before ++ (name, value) :: after)%list /\
    ~ In name (map fst before).

(** The line [env] is to print for the argument [arg]: [arg=value] when
    the variable is set, and otherwise the notice that it was not
    found. *)
Definition envLine {OS : Type} `{Platform OS} (os : OS) (arg line : string)
  : Prop :=
  (exists value, isSet (os_env os) arg value /\
                 line = arg ++ "=" ++ value ++ nl) \/
  (~ In arg (map fst (os_env os)) /\
   line = arg ++ " not found in environment variables" ++ nl).

(** [fmt.Fprint], [fmt.Fprintf] and [fmt.Fprintln] format their operands
    and hand the text to the writer in one [Write] call.  The verbs the
    program uses ([%v] and [%s] on strings) print the operand as it is, so
    the formatted text is written out at each call below. *)
Definition Fprint {W : Type} `{Writer W} (w : W) (text : string)
  : W * option error :=
  Write w text.

Definition Fprintln {W : Type} `{Writer W} (w : W) (text : string)
  : W * option error :=
  Write w (text ++ nl).

(** The writer after the texts [ps] have been written one call each, the
    errors of the calls dropped (Go: [_, _ = fmt.Fprintln(w, ...)]). *)
Definition writes {W : Type} `{Writer W} (w : W) (ps : list string) : W :=
  fold_left (fun w p => fst (Write w p)) ps w.

(** ** The program *)

(** The names [handleInput] has a case for. *)
Definition builtins : list string :=
  ["cd"; "env"; "exit"; "echo"; "pwd"; "history"; "mkdir"; "rm"].

(** A line whose command is [exit]. *)
Definition exitLine (line : string) : Prop :=
  exists args, Fields line = "exit" :: args.

(** A call of [handleInput] returns, blocks for ever on the send to the
    exit channel, or waits for ever for the command it started. *)
Inductive outcome (A : Type) : Type :=
| Returns (a : A)
| Blocks
| Waits.
Arguments Returns {A} a.
Arguments Blocks {A}.
Arguments Waits {A}.

Section Shell.

Context {W R OS : Type} `{Writer W} `{Reader R} `{Platform OS}.

(** What a call of [handleInput] leaves behind: the error it returns, the
    writer [w], the exit channel and the state of the system. *)
Record dispatched : Type :=
  { d_err : option error; d_out : W; d_exit : Chan.t; d_os : OS }.

Definition ChangeDirectory (args : list string) (os : OS) : option error * OS :=
  match args with
  | [] => (Some "cd: missing argument", os)
  | dir :: _ => os_Chdir dir os
  end.

(** [for _, envVar := range os.Environ() { Fprintln(w, envVar) }] *)
Fixpoint printEnviron (w : W) (vars : list string) : W :=
  match vars with
  | [] => w
  | envVar :: rest => printEnviron (fst (Fprintln w envVar)) rest
  end.

(** [for _, arg := range args { ... }] of [EnvironmentVariables] *)
Fixpoint printLookups (w : W) (args : list string) (os : OS) : W :=
  match args with
  | [] => w
  | arg :: rest =>
      match os_LookupEnv arg os with
      | Some value =>
          printLookups (fst (Fprint w (arg ++ "=" ++ value ++ nl))) rest os
      | None =>
          printLookups
            (fst (Fprint w (arg ++ " not found in environment variables" ++ nl)))
            rest os
      end
  end.

Definition EnvironmentVariables (w : W) (args : list string) (os : OS)
  : option error * W :=
  match args with
  | [] => (None, printEnviron w (os_Environ os))
  | _ => (None, printLookups w args os)
  end.

Definition Echo (w : W) (args : list string) : option error * W :=
  (None, fst (Fprintln w (Join args " "))).

Definition PrintWorkingDirectory (w : W) (os : OS) : option error * W :=
  match os_Getwd os with
  | Err err => (Some err, w)
  | Ok wd => (None, fst (Fprintln w wd))
  end.

Definition History (w : W) (args : list string) : option error * W :=
  (None, fst (Fprintln w "History command is not implemented yet.")).

(** [for _, dir := range args { ... }] of [MakeDirectory] *)
Fixpoint makeEach (args : list string) (os : OS) : option error * OS :=
  match args with
  | [] => (None, os)
  | dir :: rest =>
      match os_Mkdir dir os with
      | (Some err, os') => (Some err, os')
      | (None, os') => makeEach rest os'
      end
  end.

Definition MakeDirectory (args : list string) (os : OS) : option error * OS :=
  match args with
  | [] => (Some "mkdir: missing operand", os)
  | _ => makeEach args os
  end.

(** [for _, file := range args { ... }] of [RemoveFile] *)
Fixpoint removeEach (args : list string) (os : OS) : option error * OS :=
  match args with
  | [] => (None, os)
  | file :: rest =>
      match os_Remove file os with
      | (Some err, os') => (Some err, os')
      | (None, os') => removeEach rest os'
      end
  end.

Definition RemoveFile (args : list string) (os : OS) : option error * OS :=
  match args with
  | [] => (Some "rm: missing operand", os)
  | _ => removeEach args os
  end.

(** The command writes to the standard output and standard error of the
    process, not to [w]: what it prints is part of what [exec_Run] does
    to the system.  [cmd.Run()] waits for the command: a command that
    never exits keeps [executeCommand] from returning. *)
Definition executeCommand (name : string) (arg : list string) (os : OS)
  : waited (option error * OS) :=
  exec_Run name arg os.

Definition handleInput (w : W) (input : string) (exit : Chan.t) (os : OS)
  : outcome dispatched :=
  let input := TrimSpace input in
  let args := Fields input in
  match args with
  | [] => Returns {| d_err := None; d_out := w; d_exit := exit; d_os := os |}
  | name :: args =>
      if name =? "cd" then
        let (err, os') := ChangeDirectory args os in
        Returns {| d_err := err; d_out := w; d_exit := exit; d_os := os' |}
      else if name =? "env" then
        let (err, w') := EnvironmentVariables w args os in
        Returns {| d_err := err; d_out := w'; d_exit := exit; d_os := os |}
      else if name =? "exit" then
        match Chan.send exit with
        | Some exit' =>
            Returns {| d_err := None; d_out := w; d_exit := exit'; d_os := os |}
        | None => Blocks
        end
      else if name =? "echo" then
        let (err, w') := Echo w args in
        Returns {| d_err := err; d_out := w'; d_exit := exit; d_os := os |}
      else if name =? "pwd" then
        let (err, w') := PrintWorkingDirectory w os in
        Returns {| d_err := err; d_out := w'; d_exit := exit; d_os := os |}
      else if name =? "history" then
        let (err, w') := History w args in
        Returns {| d_err := err; d_out := w'; d_exit := exit; d_os := os |}
      else if name =? "mkdir" then
        let (err, os') := MakeDirectory args os in
        Returns {| d_err := err; d_out := w; d_exit := exit; d_os := os' |}
      else if name =? "rm" then
        let (err, os') := RemoveFile args os in
        Returns {| d_err := err; d_out := w; d_exit := exit; d_os := os' |}
      else
        match executeCommand name args os with
        | Back (err, os') =>
            Returns {| d_err := err; d_out := w; d_exit := exit; d_os := os' |}
        | Forever => Waits
        end
  end.

Definition printPrompt (w : W) (os : OS) : option error * W :=
  match user_Current os with
  | Err err => (Some err, w)
  | Ok username =>
      match os_Getwd os with
      | Err err => (Some err, w)
      | Ok wd =>
          let (w', err) := Fprint w (wd ++ " [" ++ username ++ "] $ ") in
          (err, w')
      end
  end.

(** The state [runLoop] works on: its line reader over [r], its writers
    [w] and [errW], the exit channel and the system. *)
Record shell : Type :=
  { sh_in : R; sh_out : W; sh_err : W; sh_exit : Chan.t; sh_os : OS }.

(** One pass through the body of the [for] loop of [runLoop]. *)
Inductive pass : Type :=
| Continue (s : shell)   (* the body ended or reached [continue] *)
| Return (s : shell)     (* [return] *)
| Stuck                  (* the send in [handleInput] blocked *)
| Waiting.               (* [handleInput] waits for a command for ever *)

Definition loopBody (s : shell) : pass :=
  match Chan.tryRecv (sh_exit s) with
  | Some exit' =>
      Return {| sh_in := sh_in s;
                sh_out := fst (Fprintln (sh_out s) "exiting gracefully...");
                sh_err := sh_err s; sh_exit := exit'; sh_os := sh_os s |}
  | None =>
      match printPrompt (sh_out s) (sh_os s) with
      | (Some err, w) =>
          Continue {| sh_in := sh_in s; sh_out := w;
                      sh_err := fst (Fprintln (sh_err s) err);
                      sh_exit := sh_exit s; sh_os := sh_os s |}
      | (None, w) =>
          match ReadString (sh_in s) (byte 10) with
          | (input, Some err, r) =>
              Continue {| sh_in := r; sh_out := w;
                          sh_err := fst (Fprintln (sh_err s) err);
                          sh_exit := sh_exit s; sh_os := sh_os s |}
          | (input, None, r) =>
              match handleInput w input (sh_exit s) (sh_os s) with
              | Blocks => Stuck
              | Waits => Waiting
              | Returns d =>
                  Continue {| sh_in := r; sh_out := d_out d;
                              sh_err :=
                                match d_err d with
                                | Some err => fst (Fprintln (sh_err s) err)
                                | None => sh_err s
                                end;
                              sh_exit := d_exit d; sh_os := d_os d |}
              end
          end
      end
  end.

(** How far a run of the loop got. *)
Inductive run : Type :=
| Returned (s : shell)   (* [runLoop] returned *)
| Running (s : shell)    (* still looping after the passes allowed *)
| Deadlocked             (* the only goroutine blocked on the send *)
| Hung.                  (* the loop waits for a command that never exits *)

(** The [for] loop, run for at most [passes] passes. *)
Fixpoint loop (passes : nat) (s : shell) : run :=
  match passes with
  | 0 => Running s
  | S n =>
      match loopBody s with
      | Continue s' => loop n s'
      | Return s' => Returned s'
      | Stuck => Deadlocked
      | Waiting => Hung
      end
  end.

(** The state [runLoop] starts in. *)
Definition start (r : R) (w errW : W) (exit : Chan.t) (os : OS) : shell :=
  {| sh_in := r; sh_out := w; sh_err := errW; sh_exit := exit; sh_os := os |}.

Definition runLoop (passes : nat) (r : R) (w errW : W) (exit : Chan.t) (os : OS)
  : run :=
  loop passes (start r w errW exit os).

(** [main], with the standard streams and the system it starts in. *)
Definition main (passes : nat) (stdin : R) (stdout stderr : W) (os : OS) : run :=
  let exit := Chan.make 2 in
  runLoop passes stdin stdout stderr exit os.


(** The calls [call x] for the items [xs], in order, all succeeded and led
    from [os] to [os']. *)
Inductive applied (call : string -> OS -> option error * OS)
  : list string -> OS -> OS -> Prop :=
| applied_nil (os : OS) : applied call [] os os
| applied_cons (x : string) (xs : list string) (os os1 os' : OS) :
    call x os = (None, os1) -> applied call xs os1 os' ->
    applied call (x :: xs) os os'.


(** [cmd] runs [call] on its operands in order and stops at the first
    call that fails: the error of that call is the result, the calls made
    so far have taken effect, and the operands after it play no part. *)
Definition stopsAtFirstFailure
    (call : string -> OS -> option error * OS)
    (cmd : list string -> OS -> option error * OS) : Prop :=
  forall os : OS,
    (forall done failing rest os1 os2 err,
        applied call done os os1 ->
        call failing os1 = (Some err, os2) ->
        cmd (done ++ failing :: rest)%list os = (Some err, os2)) /\
    (forall args os',
        args <> [] ->
        applied call args os os' ->
        cmd args os = (None, os')).

End Shell.

(** ** Things to run the program on

    An in-memory writer, a reader over a finite text and a small machine.
    The theorems below hold for every writer, reader and platform; these
    three serve to run the program on concrete inputs. *)

(** A writer that keeps what it is given, as [bytes.Buffer] does. *)
Record Buffer : Type := { written : string }.

#[export] Instance Buffer_Writer : Writer Buffer :=
  { Write b text := ({| written := written b ++ text |}, None) }.

(** The text of [s] up to and including the first [delim], and what
    follows it. *)
Fixpoint cutAfter (delim : ascii) (s : string) : option (string * string) :=
  match s with
  | "" => None
  | String c s' =>
      if Ascii.eqb c delim then Some (String c "", s')
      else match cutAfter delim s' with
           | Some (line, rest) => Some (String c line, rest)
           | None => None
           end
  end.

(** A line reader over a text that ends, as [strings.NewReader] or a
    closed pipe: when the delimiter does not come, what is left is
    returned with the error [io.EOF]. *)
Record Source : Type := { unread : string }.

#[export] Instance Source_Reader : Reader Source :=
  { ReadString r delim :=
      match cutAfter delim (unread r) with
      | Some (line, rest) => (line, None, {| unread := rest |})
      | None => (unread r, Some "EOF", {| unread := "" |})
      end }.

(** A machine with a flat set of directories and files, and the list of
    the calls made to it, newest first. *)
Record Machine : Type :=
  { m_user : string;
    m_cwd : string;
    m_env : list (string * string);
    m_dirs : list string;
    m_files : list string;
    m_calls : list string }.

Definition called (c : string) (m : Machine) : Machine :=
  {| m_user := m_user m; m_cwd := m_cwd m; m_env := m_env m;
     m_dirs := m_dirs m; m_files := m_files m; m_calls := c :: m_calls m |}.

Definition has (x : string) (l : list string) : bool :=
  existsb (String.eqb x) l.

Definition without (x : string) (l : list string) : list string :=
  filter (fun y => negb (String.eqb x y)) l.

#[export] Instance Machine_Platform : Platform Machine :=
  { user_Current m := Ok (m_user m);
    os_Getwd m := Ok (m_cwd m);
    os_Chdir dir m :=
      let m := called ("chdir " ++ dir) m in
      if has dir (m_dirs m) then
        (None,
         {| m_user := m_user m;
            m_cwd := if HasPrefix dir "/" then dir else m_cwd m ++ "/" ++ dir;
            m_env := m_env m;
            m_dirs := m_dirs m; m_files := m_files m; m_calls := m_calls m |})
      else (Some ("chdir " ++ dir ++ ": no such file or directory"), m);
    os_env m := m_env m;
    os_Mkdir dir m :=
      let m := called ("mkdir " ++ dir) m in
      if has dir (m_dirs m) || has dir (m_files m) then
        (Some ("mkdir " ++ dir ++ ": file exists"), m)
      else
        (None,
         {| m_user := m_user m; m_cwd := m_cwd m; m_env := m_env m;
            m_dirs := dir :: m_dirs m; m_files := m_files m;
            m_calls := m_calls m |});
    os_Remove file m :=
      let m := called ("remove " ++ file) m in
      if has file (m_dirs m) || has file (m_files m) then
        (None,
         {| m_user := m_user m; m_cwd := m_cwd m; m_env := m_env m;
            m_dirs := without file (m_dirs m);
            m_files := without file (m_files m); m_calls := m_calls m |})
      else (Some ("remove " ++ file ++ ": no such file or directory"), m);
    exec_Run name arg m :=
      Back
        (Some ("exec: " ++ rune1 34 ++ name ++ rune1 34
               ++ ": executable file not found in $PATH"),
         called ("exec " ++ Join (name :: arg) " ") m) }.

Definition buffer0 : Buffer := {| written := "" |}.

(** A machine on which the user of the process cannot be looked up; the
    rest is the machine it wraps. *)
Record Nobody : Type := { nb_machine : Machine }.

#[export] Instance Nobody_Platform : Platform Nobody :=
  { user_Current _ := Err "user: unknown userid 1000";
    os_Getwd m := os_Getwd (nb_machine m);
    os_Chdir dir m :=
      let (err, m') := os_Chdir dir (nb_machine m) in
      (err, {| nb_machine := m' |});
    os_env m := os_env (nb_machine m);
    os_Mkdir dir m :=
      let (err, m') := os_Mkdir dir (nb_machine m) in
      (err, {| nb_machine := m' |});
    os_Remove file m :=
      let (err, m') := os_Remove file (nb_machine m) in
      (err, {| nb_machine := m' |});
    exec_Run name arg m :=
      match exec_Run name arg (nb_machine m) with
      | Back (err, m') => Back (err, {| nb_machine := m' |})
      | Forever => Forever
      end }.

(** A machine on which every command that is started runs for ever; the
    rest is the machine it wraps. *)
Record Tarpit : Type := { tp_machine : Machine }.

#[export] Instance Tarpit_Platform : Platform Tarpit :=
  { user_Current m := user_Current (tp_machine m);
    os_Getwd m := os_Getwd (tp_machine m);
    os_Chdir dir m :=
      let (err, m') := os_Chdir dir (tp_machine m) in
      (err, {| tp_machine := m' |});
    os_env m := os_env (tp_machine m);
    os_Mkdir dir m :=
      let (err, m') := os_Mkdir dir (tp_machine m) in
      (err, {| tp_machine := m' |});
    os_Remove file m :=
      let (err, m') := os_Remove file (tp_machine m) in
      (err, {| tp_machine := m' |});
    exec_Run _ _ _ := Forever }.

Definition machine0 : Machine :=
  {| m_user := "ada"; m_cwd := "/home/ada";
     m_env := [("HOME", "/home/ada"); ("FOO", "bar")];
     m_dirs := ["/home/ada"; "a"]; m_files := ["notes.txt"]; m_calls := [] |}.


(** ** Facts about the string functions *)

Section StringFacts.

Lemma sapp_nil_r (s : string) : s ++ "" = s.
Proof. induction s as [|c s IH]; simpl; congruence. Qed.

Lemma sapp_assoc (a b c : string) : (a ++ b) ++ c = a ++ b ++ c.
Proof. induction a as [|x a IH]; simpl; congruence. Qed.

Lemma slength_app (a b : string) :
  String.length (a ++ b) = String.length a + String.length b.
Proof. induction a as [|x a IH]; simpl; congruence. Qed.

Lemma HasPrefix_app (p r : string) : HasPrefix (p ++ r) p = true.
Proof.
  induction p as [|a p IH]; simpl; [reflexivity|].
  now rewrite Ascii.eqb_refl, IH.
Qed.

Lemma HasPrefix_inv (p s : string) :
  HasPrefix s p = true -> exists r, s = p ++ r.
Proof.
  revert s; induction p as [|a p IH]; intros s H; simpl in *.
  - now exists s.
  - destruct s as [|b s]; [discriminate|].
    apply andb_true_iff in H as [Hab Hp].
    apply Ascii.eqb_eq in Hab; subst b.
    destruct (IH _ Hp) as [r ->]. now exists r.
Qed.

(** A prefix of [s] starts with no more than [s] does. *)
Lemma HasPrefix_mono (t r p : string) :
  HasPrefix t p = true -> HasPrefix (t ++ r) p = true.
Proof.
  intros H. destruct (HasPrefix_inv _ _ H) as [q ->].
  rewrite sapp_assoc. apply HasPrefix_app.
Qed.

Lemma spaceWidth_white (e s : string) :
  In e whiteSpace -> spaceWidth (e ++ s) = String.length e.
Proof.
  unfold whiteSpace; simpl.
  intros H; repeat (destruct H as [<-|H]; [reflexivity|]); destruct H.
Qed.

Lemma white_length (e : string) :
  In e whiteSpace -> exists k, String.length e = S k.
Proof.
  unfold whiteSpace; simpl.
  intros H; repeat (destruct H as [<-|H]; [eexists; reflexivity|]); destruct H.
Qed.

Lemma spaceWidth_inv (s : string) (k : nat) :
  spaceWidth s = S k ->
  exists e r, In e whiteSpace /\ s = e ++ r.
Proof.
  unfold spaceWidth. destruct (find (HasPrefix s) whiteSpace) as [p|] eqn:F.
  - intros _. apply find_some in F as [Hin Hp].
    destruct (HasPrefix_inv _ _ Hp) as [r ->]. now exists p, r.
  - discriminate.
Qed.

Lemma spaceWidth_prefix (t r : string) :
  spaceWidth (t ++ r) = 0 -> spaceWidth t = 0.
Proof.
  unfold spaceWidth.
  destruct (find (HasPrefix t) whiteSpace) as [p|] eqn:F; [|reflexivity].
  apply find_some in F as [Hin Hp].
  destruct (find (HasPrefix (t ++ r)) whiteSpace) as [q|] eqn:G.
  - apply find_some in G as [Hq _].
    destruct (white_length _ Hq) as [k ->]. discriminate.
  - intros _. apply (find_none _ _ G) in Hin.
    rewrite (HasPrefix_mono _ _ _ Hp) in Hin. discriminate.
Qed.

(** Every text is empty, starts with a white space rune, or starts with a
    byte that does not begin one. *)
Lemma rune_cases (s : string) :
  s = "" \/
  (exists e r, In e whiteSpace /\ s = e ++ r) \/
  (exists c r, s = String c r /\ spaceWidth s = 0).
Proof.
  destruct s as [|c r]; [now left|right].
  destruct (spaceWidth (String c r)) as [|k] eqn:W.
  - right. now exists c, r.
  - left. eapply spaceWidth_inv; eauto.
Qed.

(** Induction along the runes of a text. *)
Lemma rune_ind (P : string -> Prop) :
  P "" ->
  (forall e s, In e whiteSpace -> P s -> P (e ++ s)) ->
  (forall c s, spaceWidth (String c s) = 0 -> P s -> P (String c s)) ->
  forall s, P s.
Proof.
  intros H0 Hw Hc s.
  induction s as [s IH] using (induction_ltof1 _ String.length).
  unfold ltof in IH.
  destruct (rune_cases s) as [->|[(e & r & He & ->)|(c & r & -> & W)]].
  - exact H0.
  - apply Hw; [exact He|]. apply IH.
    rewrite slength_app. destruct (white_length _ He) as [k ->]. lia.
  - apply Hc; [exact W|]. apply IH. simpl. lia.
Qed.

(** *** The loops, one rune at a time *)

Ltac each_white H :=
  unfold whiteSpace in H; simpl in H;
  repeat (destruct H as [<-|H]; [reflexivity|]); destruct H.

Lemma fieldsLoop_white (e cur s : string) :
  In e whiteSpace ->
  fieldsLoop 0 cur (e ++ s) = (flush cur ++ fieldsLoop 0 "" s)%list.
Proof. intros H; each_white H. Qed.

Lemma fieldsLoop_other (c : ascii) (cur s : string) :
  spaceWidth (String c s) = 0 ->
  fieldsLoop 0 cur (String c s) = fieldsLoop 0 (cur ++ String c "") s.
Proof. intros W. simpl fieldsLoop. now rewrite W. Qed.

Lemma isBlank_white (e s : string) :
  In e whiteSpace -> isBlank (e ++ s) = isBlank s.
Proof. intros H; each_white H. Qed.

Lemma isBlank_other (c : ascii) (s : string) :
  spaceWidth (String c s) = 0 -> isBlank (String c s) = false.
Proof. intros W. unfold isBlank. simpl blankLoop. now rewrite W. Qed.

Lemma TrimLeft_white (e s : string) :
  In e whiteSpace -> TrimLeft (e ++ s) = TrimLeft s.
Proof. intros H; each_white H. Qed.

Lemma TrimLeft_other (c : ascii) (s : string) :
  spaceWidth (String c s) = 0 -> TrimLeft (String c s) = String c s.
Proof. intros W. unfold TrimLeft. simpl trimLeftLoop. now rewrite W. Qed.

Lemma TrimRight_white (e s : string) :
  In e whiteSpace ->
  TrimRight (e ++ s) = if isBlank s then "" else e ++ TrimRight s.
Proof. intros H; each_white H. Qed.

Lemma TrimRight_other (c : ascii) (s : string) :
  spaceWidth (String c s) = 0 ->
  TrimRight (String c s) = String c (TrimRight s).
Proof. intros W. simpl TrimRight. now rewrite (isBlank_other _ _ W). Qed.

(** *** Blank text *)

(** A text that consists of white space runes only; the empty text is
    one. *)
Inductive Blank : string -> Prop :=
| Blank_nil : Blank ""
| Blank_white (e s : string) : In e whiteSpace -> Blank s -> Blank (e ++ s).

Lemma Blank_isBlank (s : string) : Blank s -> isBlank s = true.
Proof.
  induction 1 as [|e s He B IH]; [reflexivity|].
  now rewrite (isBlank_white _ _ He).
Qed.

Lemma isBlank_Blank (s : string) : isBlank s = true <-> Blank s.
Proof.
  split; [|apply Blank_isBlank].
  induction s as [|e s He IH|c s W IH] using rune_ind.
  - constructor.
  - rewrite (isBlank_white _ _ He). intros B. constructor; auto.
  - rewrite (isBlank_other _ _ W). discriminate.
Qed.

Lemma fieldsLoop_blank (cur s : string) :
  isBlank s = true -> fieldsLoop 0 cur s = flush cur.
Proof.
  revert cur. induction s as [|e s He IH|c s W IH] using rune_ind; intros cur B.
  - reflexivity.
  - rewrite (isBlank_white _ _ He) in B.
    rewrite (fieldsLoop_white _ _ _ He), (IH "" B). apply app_nil_r.
  - rewrite (isBlank_other _ _ W) in B. discriminate.
Qed.

Lemma Fields_blank (s : string) : Blank s -> Fields s = [].
Proof. intros B. apply (fieldsLoop_blank ""), isBlank_Blank, B. Qed.

(** *** Trimming does not change the fields *)

Lemma TrimRight_is_prefix (s : string) : exists r, s = TrimRight s ++ r.
Proof.
  induction s as [|c s [r IH]]; [now exists ""|].
  simpl TrimRight. destruct (isBlank (String c s)).
  - now exists (String c s).
  - exists r. simpl. now rewrite <- IH.
Qed.

Lemma fieldsLoop_TrimRight (cur s : string) :
  fieldsLoop 0 cur (TrimRight s) = fieldsLoop 0 cur s.
Proof.
  revert cur. induction s as [|e s He IH|c s W IH] using rune_ind; intros cur.
  - reflexivity.
  - rewrite (TrimRight_white _ _ He), (fieldsLoop_white _ _ _ He).
    destruct (isBlank s) eqn:B.
    + rewrite (fieldsLoop_blank "" s B). simpl. now rewrite app_nil_r.
    + now rewrite (fieldsLoop_white _ _ _ He), IH.
  - rewrite (TrimRight_other _ _ W), (fieldsLoop_other _ _ _ W).
    rewrite fieldsLoop_other; [apply IH|].
    destruct (TrimRight_is_prefix s) as [r E].
    apply spaceWidth_prefix with (r := r). simpl. now rewrite <- E.
Qed.

Lemma fieldsLoop_TrimLeft (s : string) :
  fieldsLoop 0 "" (TrimLeft s) = fieldsLoop 0 "" s.
Proof.
  induction s as [|e s He IH|c s W IH] using rune_ind.
  - reflexivity.
  - now rewrite (TrimLeft_white _ _ He), (fieldsLoop_white _ _ _ He).
  - now rewrite (TrimLeft_other _ _ W).
Qed.

Lemma Fields_TrimSpace (s : string) : Fields (TrimSpace s) = Fields s.
Proof.
  unfold Fields, TrimSpace.
  now rewrite fieldsLoop_TrimRight, fieldsLoop_TrimLeft.
Qed.

(** *** White space is found where Go finds it

    What follows a text does not change the white space found in it, as
    long as what follows starts a rune of its own.  With this the model of
    [TrimSpace] is checked against what Go documents: leading and
    trailing white space runes are removed, one at a time, and a text
    without any at its ends is returned as it is. *)

Lemma spaceWidth_app_clean (c : ascii) (t x : string) :
  cleanStart x ->
  spaceWidth (String c t ++ x) = spaceWidth (String c t).
Proof.
  intros Hx. destruct t as [|c2 [|c3 t]].
  - destruct x as [|d x]; [reflexivity|]. simpl in Hx. simpl append.
    destruct d as [[] [] [] [] [] [] [] []];
      first [discriminate Hx | reflexivity].
  - destruct x as [|d x]; [reflexivity|]. simpl in Hx. simpl append.
    destruct d as [[] [] [] [] [] [] [] []];
      first [discriminate Hx | reflexivity].
  - reflexivity.
Qed.

Lemma white_cleanStart (e s : string) :
  In e whiteSpace -> cleanStart (e ++ s).
Proof. intros He; each_white He. Qed.

Lemma fieldsLoop_app_clean (a x y cur : string) :
  cleanStart x -> cleanStart y ->
  (forall cur', fieldsLoop 0 cur' x = fieldsLoop 0 cur' y) ->
  fieldsLoop 0 cur (a ++ x) = fieldsLoop 0 cur (a ++ y).
Proof.
  intros Hx Hy E. revert cur.
  induction a as [|e a He IH|c a Wd IH] using rune_ind; intros cur.
  - apply E.
  - now rewrite !sapp_assoc, !(fieldsLoop_white _ _ _ He), IH.
  - change (String c a ++ x) with (String c (a ++ x)).
    change (String c a ++ y) with (String c (a ++ y)).
    rewrite !fieldsLoop_other; [apply IH| |].
    + change (String c (a ++ y)) with (String c a ++ y).
      now rewrite spaceWidth_app_clean.
    + change (String c (a ++ x)) with (String c a ++ x).
      now rewrite spaceWidth_app_clean.
Qed.

Lemma fieldsLoop_run (ws cur s : string) :
  Blank ws -> ws <> "" ->
  fieldsLoop 0 cur (ws ++ s) = (flush cur ++ fieldsLoop 0 "" s)%list.
Proof.
  intros B. revert cur.
  induction B as [|e ws He B IH]; intros cur N; [contradiction|].
  rewrite sapp_assoc, (fieldsLoop_white _ _ _ He).
  destruct ws as [|c ws']; [reflexivity|].
  now rewrite IH by discriminate.
Qed.

(** A run of white space inside a line splits it as one space does. *)
Lemma Fields_collapse (a ws b : string) :
  Blank ws -> ws <> "" ->
  Fields (a ++ ws ++ b) = Fields (a ++ " " ++ b).
Proof.
  intros B N. unfold Fields. apply fieldsLoop_app_clean.
  - destruct B as [|e ws He B]; [contradiction|].
    rewrite sapp_assoc. now apply white_cleanStart.
  - reflexivity.
  - intros cur. rewrite (fieldsLoop_run _ _ _ B N).
    apply (fieldsLoop_white " "). simpl. tauto.
Qed.

Lemma isBlank_app_clean (a x : string) :
  cleanStart x -> isBlank (a ++ x) = isBlank a && isBlank x.
Proof.
  intros Hx. induction a as [|e a He IH|c a Wd IH] using rune_ind.
  - reflexivity.
  - now rewrite sapp_assoc, !(isBlank_white _ _ He).
  - rewrite (isBlank_other _ _ Wd).
    change (String c a ++ x) with (String c (a ++ x)).
    apply isBlank_other.
    change (String c (a ++ x)) with (String c a ++ x).
    now rewrite spaceWidth_app_clean.
Qed.

(** [TrimRight] removes a trailing white space rune. *)
Lemma TrimRight_snoc (s e : string) :
  In e whiteSpace -> TrimRight (s ++ e) = TrimRight s.
Proof.
  intros He.
  assert (Ce : cleanStart e)
    by (rewrite <- (sapp_nil_r e); now apply white_cleanStart).
  assert (Be : isBlank e = true)
    by (rewrite <- (sapp_nil_r e); now rewrite (isBlank_white _ _ He)).
  induction s as [|e' s He' IH|c s Wd IH] using rune_ind.
  - simpl append. rewrite <- (sapp_nil_r e).
    now rewrite (TrimRight_white _ _ He).
  - rewrite sapp_assoc, !(TrimRight_white _ _ He'), IH.
    now rewrite (isBlank_app_clean _ _ Ce), Be, andb_true_r.
  - rewrite (TrimRight_other _ _ Wd).
    change (String c s ++ e) with (String c (s ++ e)).
    rewrite TrimRight_other; [now rewrite IH|].
    change (String c (s ++ e)) with (String c s ++ e).
    now rewrite spaceWidth_app_clean.
Qed.

(** A blank text that is not empty ends with a white space rune. *)
Lemma Blank_ends_white (s : string) :
  Blank s -> s <> "" -> exists s0 e, In e whiteSpace /\ s = s0 ++ e.
Proof.
  induction 1 as [|e s He B IH]; intros N; [contradiction|].
  destruct s as [|c s'].
  - exists "", e. now rewrite sapp_nil_r.
  - destruct IH as (s0 & e2 & H2 & E); [discriminate|].
    exists (e ++ s0), e2. now rewrite E, sapp_assoc.
Qed.

(** [TrimRight] returns a text that ends with no white space rune as it
    is. *)
Lemma TrimRight_keep (s : string) :
  (forall s0 e, In e whiteSpace -> s <> s0 ++ e) -> TrimRight s = s.
Proof.
  induction s as [|e s He IH|c s Wd IH] using rune_ind; intros N.
  - reflexivity.
  - rewrite (TrimRight_white _ _ He). destruct (isBlank s) eqn:B.
    + exfalso. destruct s as [|c s'].
      * apply (N "" e He). now rewrite sapp_nil_r.
      * destruct (Blank_ends_white (String c s')) as (s0 & e2 & H2 & E);
          [now apply isBlank_Blank|discriminate|].
        apply (N (e ++ s0) e2 H2). now rewrite E, sapp_assoc.
    + rewrite IH; [reflexivity|].
      intros s0 e2 H2 E. apply (N (e ++ s0) e2 H2).
      now rewrite E, sapp_assoc.
  - rewrite (TrimRight_other _ _ Wd), IH; [reflexivity|].
    intros s0 e2 H2 E. apply (N (String c s0) e2 H2). simpl. now rewrite E.
Qed.

(** *** No field is empty *)

Lemma flush_nonempty (cur : string) : Forall (fun t => t <> "") (flush cur).
Proof. destruct cur; simpl; [constructor|]. now repeat constructor. Qed.

Lemma fieldsLoop_nonempty (cur s : string) :
  Forall (fun t => t <> "") (fieldsLoop 0 cur s).
Proof.
  revert cur. induction s as [|e s He IH|c s W IH] using rune_ind; intros cur.
  - apply flush_nonempty.
  - rewrite (fieldsLoop_white _ _ _ He). apply Forall_app. split.
    + apply flush_nonempty.
    + apply IH.
  - rewrite (fieldsLoop_other _ _ _ W). apply IH.
Qed.

Lemma Fields_nonempty (s : string) : Forall (fun t => t <> "") (Fields s).
Proof. apply fieldsLoop_nonempty. Qed.

(** *** Joining the fields back *)

Lemma solidIn_clean (cur s : string) :
  cleanStart s -> solidIn cur s = solidIn cur "".
Proof.
  intros Hs. induction cur as [|c q IH]; [reflexivity|].
  simpl solidIn. rewrite IH.
  change (String c (q ++ s)) with (String c q ++ s).
  change (String c (q ++ "")) with (String c q ++ "").
  now rewrite spaceWidth_app_clean, sapp_nil_r.
Qed.

Lemma solidIn_snoc (cur s : string) (c : ascii) :
  solidIn cur (String c s) = true ->
  spaceWidth (String c s) = 0 ->
  solidIn (cur ++ String c "") s = true.
Proof.
  intros Hc Wd. induction cur as [|a q IH].
  - simpl. now rewrite Wd.
  - simpl in Hc |- *. apply andb_true_iff in Hc as [Ha Hq].
    rewrite (IH Hq), andb_true_r.
    rewrite sapp_assoc. exact Ha.
Qed.

Lemma fieldsLoop_solid (cur s : string) :
  solidIn cur s = true ->
  Forall (fun t => solid t = true) (fieldsLoop 0 cur s).
Proof.
  revert cur. induction s as [|e s He IH|c s Wd IH] using rune_ind; intros cur Hc.
  - destruct cur; simpl; [constructor|]. now repeat constructor.
  - rewrite (fieldsLoop_white _ _ _ He). apply Forall_app. split.
    + rewrite (solidIn_clean _ _ (white_cleanStart _ _ He)) in Hc.
      destruct cur; simpl; [constructor|]. now repeat constructor.
    + now apply IH.
  - rewrite (fieldsLoop_other _ _ _ Wd). apply IH. now apply solidIn_snoc.
Qed.

Lemma Fields_solid (s : string) : Forall (fun t => solid t = true) (Fields s).
Proof. now apply fieldsLoop_solid. Qed.

(** A text without white space is read into the pending field whole. *)
Lemma fieldsLoop_over_solid (t cur x : string) :
  solid t = true -> cleanStart x ->
  fieldsLoop 0 cur (t ++ x) = fieldsLoop 0 (cur ++ t) x.
Proof.
  intros St Hx. revert cur. induction t as [|c t IH]; intros cur.
  - now rewrite sapp_nil_r.
  - unfold solid in St. simpl solidIn in St.
    apply andb_true_iff in St as [Wd St].
    apply Nat.eqb_eq in Wd. rewrite sapp_nil_r in Wd.
    change (String c t ++ x) with (String c (t ++ x)).
    rewrite fieldsLoop_other.
    + rewrite (IH St). f_equal.
      now rewrite sapp_assoc.
    + change (String c (t ++ x)) with (String c t ++ x).
      now rewrite spaceWidth_app_clean.
Qed.

Lemma Fields_Join (ts : list string) :
  Forall (fun t => solid t = true) ts ->
  Forall (fun t => t <> "") ts ->
  Fields (Join ts " ") = ts.
Proof.
  unfold Fields. induction ts as [|t ts IH]; intros So Ne; [reflexivity|].
  inversion So as [|? ? St So']; inversion Ne as [|? ? Nt Ne']; subst.
  destruct ts as [|t2 ts].
  - pose proof (fieldsLoop_over_solid t "" "" St I) as E.
    rewrite sapp_nil_r in E. simpl Join. rewrite E. simpl.
    destruct t; [contradiction|reflexivity].
  - change (Join (t :: t2 :: ts) " ") with (t ++ " " ++ Join (t2 :: ts) " ").
    rewrite (fieldsLoop_over_solid t "" _ St) by reflexivity.
    rewrite (fieldsLoop_white " ") by (simpl; tauto).
    rewrite (IH So' Ne'). simpl. destruct t; [contradiction|reflexivity].
Qed.

(** White space around a text does not change its fields. *)
Lemma Fields_padded (l s r : string) :
  Blank l -> Blank r -> Fields (l ++ s ++ r) = Fields s.
Proof.
  intros Bl Br. unfold Fields.
  assert (L : forall x, fieldsLoop 0 "" (l ++ x) = fieldsLoop 0 "" x).
  { induction Bl as [|e l He Bl IH]; intros x; [reflexivity|].
    now rewrite sapp_assoc, (fieldsLoop_white _ _ _ He), IH. }
  rewrite L. rewrite <- (sapp_nil_r s) at 2.
  apply fieldsLoop_app_clean.
  - destruct Br as [|e r He Br]; [exact I|]. now apply white_cleanStart.
  - exact I.
  - intros cur. now rewrite fieldsLoop_blank by now apply isBlank_Blank.
Qed.

End StringFacts.

(** ** Facts about the program *)

Section Properties.

Context {W R OS : Type} `{Writer W} `{Reader R} `{Platform OS}.

(** [handleInput] sees its input through [Fields] only. *)
Lemma handleInput_Fields (w : W) (a b : string) (exit : Chan.t) (os : OS) :
  Fields a = Fields b ->
  handleInput w a exit os = handleInput w b exit os.
Proof.
  intros E. unfold handleInput. cbv zeta.
  now rewrite !Fields_TrimSpace, E.
Qed.

Lemma writes_app (w : W) (ps qs : list string) :
  writes w (ps ++ qs) = writes (writes w ps) qs.
Proof. apply fold_left_app. Qed.

Lemma printEnviron_writes (w : W) (vars : list string) :
  printEnviron w vars = writes w (map (fun v => v ++ nl) vars).
Proof.
  revert w. induction vars as [|v vars IH]; intros w; [reflexivity|].
  simpl. apply IH.
Qed.

Lemma printLookups_writes (w : W) (args : list string) (os : OS) :
  printLookups w args os =
  writes w
    (map (fun arg =>
            match os_LookupEnv arg os with
            | Some value => arg ++ "=" ++ value ++ nl
            | None => arg ++ " not found in environment variables" ++ nl
            end) args).
Proof.
  revert w. induction args as [|arg args IH]; intros w; [reflexivity|].
  simpl. destruct (os_LookupEnv arg os); apply IH.
Qed.

(** The loop over the items either applies them all or stops at the first
    call that fails. *)
Lemma each_cases (call : string -> OS -> option error * OS)
    (each : list string -> OS -> option error * OS) :
  (forall os, each [] os = (None, os)) ->
  (forall x xs os,
      each (x :: xs) os =
      match call x os with
      | (Some err, os') => (Some err, os')
      | (None, os') => each xs os'
      end) ->
  forall args os,
    (exists os', applied call args os os' /\ each args os = (None, os')) \/
    (exists done failing rest os1 os2 err,
        args = (done ++ failing :: rest)%list /\
        applied call done os os1 /\
        call failing os1 = (Some err, os2) /\
        each args os = (Some err, os2)).
Proof.
  intros Hnil Hcons args.
  induction args as [|x xs IH]; intros os.
  - left. exists os. split; [constructor|apply Hnil].
  - rewrite Hcons. destruct (call x os) as [[err|] os1] eqn:C.
    + right. exists [], x, xs, os, os1, err.
      repeat split; [constructor|exact C].
    + destruct (IH os1) as [(os' & A & E)|(dn & f & rest & o1 & o2 & err & -> & A & F & E)].
      * left. exists os'. split; [econstructor; eauto|exact E].
      * right. exists (x :: dn), f, rest, o1, o2, err.
        repeat split; [econstructor; eauto|exact F|exact E].
Qed.

(** The state a run reaches determines the result of the loop. *)
Lemma each_det (call : string -> OS -> option error * OS)
    (xs : list string) (os o1 o2 : OS) :
  applied call xs os o1 -> applied call xs os o2 -> o1 = o2.
Proof.
  intros A. revert o2. induction A as [os|x xs os os1 os' C A IH]; intros o2 B.
  - now inversion B.
  - inversion B as [|? ? ? os1' ? C' B']; subst.
    rewrite C in C'. injection C' as <-. now apply IH.
Qed.

Lemma each_stops (call : string -> OS -> option error * OS)
    (each : list string -> OS -> option error * OS) :
  (forall os, each [] os = (None, os)) ->
  (forall x xs os,
      each (x :: xs) os =
      match call x os with
      | (Some err, os') => (Some err, os')
      | (None, os') => each xs os'
      end) ->
  forall os,
    (forall done failing rest os1 os2 err,
        applied call done os os1 ->
        call failing os1 = (Some err, os2) ->
        each (done ++ failing :: rest)%list os = (Some err, os2)) /\
    (forall args os', applied call args os os' -> each args os = (None, os')).
Proof.
  intros Hnil Hcons os. split.
  - intros dn f rest os1 os2 err A F.
    induction A as [o|x xs o o1 o' C A IH]; simpl.
    + now rewrite Hcons, F.
    + rewrite Hcons, C. now apply IH.
  - intros args os' A.
    induction A as [o|x xs o o1 o' C A IH]; [apply Hnil|].
    now rewrite Hcons, C.
Qed.

(** C2: a line that is empty or holds white space only is dispatched
    with success and without any effect: nothing is written to the
    writer, no exit signal is sent, the system is left as it was. *)
Theorem blank_line_is_noop (w : W) (input : string) (exit : Chan.t) (os : OS) :
  Blank input ->
  handleInput w input exit os =
  Returns {| d_err := None; d_out := w; d_exit := exit; d_os := os |}.
Proof.
  intros B. unfold handleInput. cbv zeta.
  now rewrite Fields_TrimSpace, (Fields_blank _ B).
Qed.

(** C4: [mkdir] and [rm] without operand return the missing-operand
    error and make no call; with operands they call the system for each
    one in order and stop at the first failure, whose error they return:
    the calls before it have taken effect and stay, the operands after it
    are not touched.  Every run is of one of these shapes. *)
Theorem mkdir_rm_stop_at_first_failure :
  (forall os : OS,
      MakeDirectory [] os = (Some "mkdir: missing operand", os) /\
      RemoveFile [] os = (Some "rm: missing operand", os)) /\
  stopsAtFirstFailure os_Mkdir MakeDirectory /\
  stopsAtFirstFailure os_Remove RemoveFile /\
  (forall (args : list string) (os : OS),
      args <> [] ->
      (exists os',
          applied os_Mkdir args os os' /\ MakeDirectory args os = (None, os')) \/
      (exists done failing rest os1 os2 err,
          args = (done ++ failing :: rest)%list /\
          applied os_Mkdir done os os1 /\
          os_Mkdir failing os1 = (Some err, os2) /\
          MakeDirectory args os = (Some err, os2))) /\
  (forall (args : list string) (os : OS),
      args <> [] ->
      (exists os',
          applied os_Remove args os os' /\ RemoveFile args os = (None, os')) \/
      (exists done failing rest os1 os2 err,
          args = (done ++ failing :: rest)%list /\
          applied os_Remove done os os1 /\
          os_Remove failing os1 = (Some err, os2) /\
          RemoveFile args os = (Some err, os2))).
Proof.
  assert (M : forall args os, args <> [] -> MakeDirectory args os = makeEach args os)
    by (intros [|x xs] os N; [contradiction|reflexivity]).
  assert (D : forall args os, args <> [] -> RemoveFile args os = removeEach args os)
    by (intros [|x xs] os N; [contradiction|reflexivity]).
  assert (N : forall (a : list string) f b, (a ++ f :: b)%list <> [])
    by (intros [|x a] f b; discriminate).
  repeat split.
  - intros dn f rest os1 os2 err A F. rewrite M by apply N.
    now apply (each_stops os_Mkdir makeEach) with (os1 := os1).
  - intros args os' Hne A. rewrite M by exact Hne.
    now apply (each_stops os_Mkdir makeEach).
  - intros dn f rest os1 os2 err A F. rewrite D by apply N.
    now apply (each_stops os_Remove removeEach) with (os1 := os1).
  - intros args os' Hne A. rewrite D by exact Hne.
    now apply (each_stops os_Remove removeEach).
  - intros args os Hne. rewrite M by exact Hne.
    now apply (each_cases os_Mkdir makeEach).
  - intros args os Hne. rewrite D by exact Hne.
    now apply (each_cases os_Remove removeEach).
Qed.

(** C7: [cd] without argument returns the missing-argument error and
    leaves the system, and so the working directory, as it was; with
    arguments it is the call [os.Chdir] on the first one, whose error, if
    any, it returns. *)
Theorem cd_changes_to_first_argument (os : OS) :
  ChangeDirectory [] os = (Some "cd: missing argument", os) /\
  (forall (dir : string) (rest : list string),
      ChangeDirectory (dir :: rest) os = os_Chdir dir os) /\
  (forall (w : W) (input : string) (exit : Chan.t) (args : list string),
      Fields input = "cd" :: args ->
      handleInput w input exit os =
      Returns {| d_err := fst (ChangeDirectory args os); d_out := w;
                 d_exit := exit; d_os := snd (ChangeDirectory args os) |}).
Proof.
  repeat split.
  intros w input exit args E. unfold handleInput. cbv zeta.
  rewrite Fields_TrimSpace, E. simpl.
  now destruct (ChangeDirectory args os).
Qed.

(** [os_LookupEnv] finds the value a variable is set to, and nothing
    when the variable has no entry. *)
Lemma os_LookupEnv_isSet (arg value : string) (os : OS) :
  isSet (os_env os) arg value -> os_LookupEnv arg os = Some value.
Proof.
  unfold os_LookupEnv. intros (before & after & -> & N).
  induction before as [|[k x] before IH]; simpl.
  - now rewrite String.eqb_refl.
  - simpl in N. destruct (String.eqb_spec k arg) as [->|D].
    + exfalso. apply N. now left.
    + apply IH. intros I. apply N. now right.
Qed.

Lemma os_LookupEnv_unset (arg : string) (os : OS) :
  ~ In arg (map fst (os_env os)) -> os_LookupEnv arg os = None.
Proof.
  unfold os_LookupEnv.
  induction (os_env os) as [|[k x] env IH]; simpl; intros N; [reflexivity|].
  destruct (String.eqb_spec k arg) as [->|D].
  - exfalso. apply N. now left.
  - apply IH. intros I. apply N. now right.
Qed.

Lemma os_LookupEnv_Some (arg value : string) (os : OS) :
  os_LookupEnv arg os = Some value -> isSet (os_env os) arg value.
Proof.
  unfold os_LookupEnv, isSet.
  induction (os_env os) as [|[k x] env IH]; simpl; [discriminate|].
  destruct (String.eqb_spec k arg) as [->|D].
  - intros [= ->]. exists [], env. split; [reflexivity|]. simpl. tauto.
  - intros E. destruct (IH E) as (before & after & -> & N).
    exists ((k, x) :: before), after. split; [reflexivity|].
    simpl. intros [I|I]; [contradiction|]. now apply N.
Qed.

Lemma os_LookupEnv_None (arg : string) (os : OS) :
  os_LookupEnv arg os = None -> ~ In arg (map fst (os_env os)).
Proof.
  unfold os_LookupEnv.
  induction (os_env os) as [|[k x] env IH]; simpl; [tauto|].
  destruct (String.eqb_spec k arg) as [->|D]; [discriminate|].
  intros E [I|I]; [contradiction|]. now apply IH.
Qed.

(** The line asked for an argument is the one [printLookups] writes. *)
Lemma envLine_lookup (os : OS) (arg line : string) :
  envLine os arg line <->
  line = match os_LookupEnv arg os with
         | Some value => arg ++ "=" ++ value ++ nl
         | None => arg ++ " not found in environment variables" ++ nl
         end.
Proof.
  unfold envLine. split.
  - intros [(value & S & ->)|[N ->]].
    + now rewrite (os_LookupEnv_isSet _ _ _ S).
    + now rewrite (os_LookupEnv_unset _ _ N).
  - intros ->. destruct (os_LookupEnv arg os) as [value|] eqn:E.
    + left. exists value. split; [|reflexivity]. now apply os_LookupEnv_Some.
    + right. split; [|reflexivity]. now apply os_LookupEnv_None.
Qed.

Lemma envLines_lookup (os : OS) (args lines : list string) :
  Forall2 (envLine os) args lines <->
  lines = map (fun arg =>
                 match os_LookupEnv arg os with
                 | Some value => arg ++ "=" ++ value ++ nl
                 | None => arg ++ " not found in environment variables" ++ nl
                 end) args.
Proof.
  split.
  - induction 1 as [|arg line args lines E _ IH]; [reflexivity|].
    apply envLine_lookup in E. simpl. now rewrite E, IH.
  - intros ->. induction args as [|arg args IH]; constructor; auto.
    now apply envLine_lookup.
Qed.

(** C8: [env] always returns the nil error.  Without arguments it writes
    one line [KEY=VALUE] for every variable of the environment, in
    order.  With arguments it writes one line for each argument, in
    order: [KEY=VALUE] with the value the variable is set to in the
    environment when it is set, and otherwise the notice that starts with
    the name of the argument and says that it was not found.  The lines
    are stated against the environment itself; they exist for every
    argument list and are the only ones that fit. *)
Theorem env_prints_and_never_fails (w : W) (args : list string) (os : OS) :
  fst (EnvironmentVariables w args os) = None /\
  (args = [] ->
   snd (EnvironmentVariables w args os) =
   writes w (map (fun kv => fst kv ++ "=" ++ snd kv ++ nl) (os_env os))) /\
  (args <> [] ->
   (exists lines, Forall2 (envLine os) args lines) /\
   (forall lines,
       Forall2 (envLine os) args lines ->
       snd (EnvironmentVariables w args os) = writes w lines)).
Proof.
  split; [now destruct args|]. split.
  - intros ->. unfold EnvironmentVariables, os_Environ. cbn [snd].
    rewrite printEnviron_writes, map_map. f_equal.
    apply map_ext. intros [k v]. simpl. now rewrite sapp_assoc.
  - intros N. split.
    + eexists. apply envLines_lookup. reflexivity.
    + intros lines F. apply envLines_lookup in F. subst lines.
      destruct args as [|arg args]; [contradiction|].
      unfold EnvironmentVariables. cbn [snd]. apply printLookups_writes.
Qed.

(** [Join] is the concatenation with separator of the standard
    library. *)
Lemma Join_concat (elems : list string) (sep : string) :
  Join elems sep = String.concat sep elems.
Proof.
  induction elems as [|x [|y elems] IH]; [reflexivity|reflexivity|].
  change (Join (x :: y :: elems) sep) with (x ++ sep ++ Join (y :: elems) sep).
  now rewrite IH.
Qed.

(** C9: [echo] returns the nil error and writes, in one write, its
    arguments with one space between each two and a line feed after the
    last: nothing but the line feed without arguments, the argument and
    the line feed for one, and for more the first argument, a space and
    what is written for the others. *)
Theorem echo_prints_joined_arguments (w : W) (args : list string) :
  Echo w args = (None, writes w [String.concat " " args ++ nl]) /\
  Echo w [] = (None, writes w [nl]) /\
  (forall a : string, Echo w [a] = (None, writes w [a ++ nl])) /\
  (forall (a b : string) (rest : list string),
      Echo w (a :: b :: rest) =
      (None, writes w [a ++ " " ++ String.concat " " (b :: rest) ++ nl])) /\
  Echo (W := Buffer) buffer0 ["a"; "b"] = (None, {| written := "a b" ++ nl |}).
Proof.
  assert (E : forall l, Echo w l = (None, writes w [String.concat " " l ++ nl])).
  { intros l. unfold Echo, Fprintln. now rewrite Join_concat. }
  split; [apply E|]. split; [apply (E [])|].
  split; [intros a; apply (E [a])|].
  split; [|reflexivity].
  intros a b rest. rewrite E. simpl String.concat.
  now rewrite !sapp_assoc.
Qed.

(** C10: dispatching [cd], [mkdir], [rm] or [exit] leaves the writer as
    it was given, whatever the arguments and whether the command succeeds
    or fails (a call that does not return is a blocked [exit], and none
    of the four waits for a command); so a
    built-in after which the writer differs is one of [env], [echo],
    [pwd] and [history]. *)
Theorem quiet_builtins_leave_writer
    (w : W) (input : string) (exit : Chan.t) (os : OS)
    (name : string) (args : list string) :
  Fields input = name :: args ->
  (In name ["cd"; "mkdir"; "rm"; "exit"] ->
   match handleInput w input exit os with
   | Returns d => d_out d = w
   | Blocks => name = "exit" /\ Chan.send exit = None
   | Waits => False
   end) /\
  (In name ["cd"; "env"; "exit"; "echo"; "pwd"; "history"; "mkdir"; "rm"] ->
   forall d,
     handleInput w input exit os = Returns d ->
     d_out d <> w ->
     In name ["env"; "echo"; "pwd"; "history"]).
Proof.
  intros E.
  assert (Q : In name ["cd"; "mkdir"; "rm"; "exit"] ->
              match handleInput w input exit os with
              | Returns d => d_out d = w
              | Blocks => name = "exit" /\ Chan.send exit = None
              | Waits => False
              end).
  { unfold handleInput. cbv zeta. rewrite Fields_TrimSpace, E.
    intros [<-|[<-|[<-|[<-|[]]]]]; simpl.
    - now destruct (ChangeDirectory args os).
    - now destruct (MakeDirectory args os).
    - now destruct (RemoveFile args os).
    - now destruct (Chan.send exit). }
  split; [exact Q|].
  intros B d Hd Hw.
  simpl in B.
  destruct B as [<-|[<-|[<-|[<-|[<-|[<-|[<-|[<-|[]]]]]]]]];
    try (simpl; tauto);
    exfalso; apply Hw;
    (lazymatch type of Q with
     | ?P -> _ => assert (P) as HP by (simpl; tauto); specialize (Q HP)
     end);
    now rewrite Hd in Q.
Qed.

(** C5: no field is empty, a run of white space inside a line separates
    as a single space does, and dispatch depends on the line through its
    fields only:
    two lines with the same fields give the same result, the same output
    and the same effects.  The line "echo   a   b" and the line
    "echo a b" both write "a b" and a line feed. *)
Theorem dispatch_depends_on_fields_only :
  (forall s : string, Forall (fun t => t <> "") (Fields s)) /\
  (forall a ws b : string,
      Blank ws -> ws <> "" ->
      Fields (a ++ ws ++ b) = Fields (a ++ " " ++ b)) /\
  (forall (w : W) (a b : string) (exit : Chan.t) (os : OS),
      Fields a = Fields b ->
      handleInput w a exit os = handleInput w b exit os) /\
  (forall (w : W) (exit : Chan.t) (os : OS),
      handleInput w "echo   a   b" exit os =
      Returns {| d_err := None; d_out := writes w ["a b" ++ nl];
                 d_exit := exit; d_os := os |} /\
      handleInput w "echo a b" exit os =
      Returns {| d_err := None; d_out := writes w ["a b" ++ nl];
                 d_exit := exit; d_os := os |}).
Proof.
  split; [exact Fields_nonempty|].
  split; [exact Fields_collapse|].
  split; [exact handleInput_Fields|].
  intros w exit os. split; reflexivity.
Qed.

(** *** The loop *)

(** Take the [switch] of [handleInput] apart, branch by branch. *)
Ltac dispatch_cases :=
  repeat match goal with
         | |- context [if ?b then _ else _] => destruct b
         end;
  try match goal with
      | |- context [let (_, _) := ?c in _] => destruct c
      | |- context [match executeCommand ?n ?a ?o with _ => _ end] =>
          destruct (executeCommand n a o) as [[? ?]|]
      end.

(** Dispatch sends at most one exit signal and receives none. *)
Lemma handleInput_exit (w : W) (input : string) (exit : Chan.t) (os : OS)
    (d : dispatched) :
  handleInput w input exit os = Returns d ->
  d_exit d = exit \/ Chan.send exit = Some (d_exit d).
Proof.
  unfold handleInput. cbv zeta.
  destruct (Fields (TrimSpace input)) as [|name args].
  { intros [= <-]. now left. }
  dispatch_cases; try discriminate; try (intros [= <-]; now left).
  destruct (Chan.send exit) as [exit'|]; [|discriminate].
  intros [= <-]. now right.
Qed.

(** Dispatch blocks only on a channel that is full. *)
Lemma handleInput_Blocks (w : W) (input : string) (exit : Chan.t) (os : OS) :
  handleInput w input exit os = Blocks -> Chan.cap exit <= Chan.len exit.
Proof.
  unfold handleInput. cbv zeta.
  destruct (Fields (TrimSpace input)) as [|name args]; [discriminate|].
  dispatch_cases; try discriminate.
  unfold Chan.send. destruct (Nat.ltb_spec (Chan.len exit) (Chan.cap exit)).
  - discriminate.
  - auto.
Qed.

Lemma tryRecv_None (ch : Chan.t) : Chan.tryRecv ch = None <-> Chan.len ch = 0.
Proof. unfold Chan.tryRecv. destruct (Chan.len ch); split; congruence. Qed.

(** The loop returns only from a pass that found the exit signal. *)
Lemma loopBody_Return (s s' : shell) :
  loopBody s = Return s' ->
  0 < Chan.len (sh_exit s) /\
  s' = {| sh_in := sh_in s;
          sh_out := writes (sh_out s) ["exiting gracefully..." ++ nl];
          sh_err := sh_err s;
          sh_exit := {| Chan.cap := Chan.cap (sh_exit s);
                        Chan.len := pred (Chan.len (sh_exit s)) |};
          sh_os := sh_os s |}.
Proof.
  unfold loopBody, Chan.tryRecv.
  destruct (Chan.len (sh_exit s)) as [|k] eqn:L.
  - destruct (printPrompt (sh_out s) (sh_os s)) as [[e|] w]; [discriminate|].
    destruct (ReadString (sh_in s) (byte 10)) as [[input [e|]] r]; [discriminate|].
    destruct (handleInput w input (sh_exit s) (sh_os s)); discriminate.
  - intros [= <-]. split; [lia|reflexivity].
Qed.


Lemma loop_Returned (n : nat) (s s' : shell) :
  loop n s = Returned s' ->
  exists k u, k < n /\ loop k s = Running u /\ loopBody u = Return s'.
Proof.
  revert s. induction n as [|n IH]; intros s; simpl; [discriminate|].
  destruct (loopBody s) as [s1|s1| |] eqn:B.
  - intros E. destruct (IH _ E) as (k & u & Hk & Hl & Hu).
    exists (S k), u. repeat split; [lia| |exact Hu]. simpl. now rewrite B.
  - intros [= <-]. exists 0, s. repeat split; [lia|exact B].
  - discriminate.
  - discriminate.
Qed.

(** A pass on an empty channel whose read fails and leaves the reader as
    it was goes on with the same reader, channel and system. *)
Lemma loopBody_failing_read (s : shell) (text : string) (err : error) :
  Chan.len (sh_exit s) = 0 ->
  ReadString (sh_in s) (byte 10) = (text, Some err, sh_in s) ->
  exists s',
    loopBody s = Continue s' /\ sh_in s' = sh_in s /\
    sh_exit s' = sh_exit s /\ sh_os s' = sh_os s.
Proof.
  intros L Rd. unfold loopBody.
  apply tryRecv_None in L. rewrite L.
  destruct (printPrompt (sh_out s) (sh_os s)) as [[e|] w].
  - eexists. split; [reflexivity|]. simpl. auto.
  - rewrite Rd. eexists. split; [reflexivity|]. simpl. auto.
Qed.

(** C1: when a pass reads a line whose command is [exit], dispatch sends
    one signal and returns the nil error, writing nothing and leaving the
    system alone; that pass ends as any other, so one pass is not enough
    for the loop to return.  The next pass finds the signal, writes the
    notice once and returns: the reader is where the [exit] line left it,
    so what follows that line is never read nor dispatched. *)
Theorem exit_ends_loop_at_next_check
    (s : shell) (w1 : W) (line : string) (r1 : R) (args : list string)
    (n : nat) :
  Chan.len (sh_exit s) = 0 ->
  0 < Chan.cap (sh_exit s) ->
  printPrompt (sh_out s) (sh_os s) = (None, w1) ->
  ReadString (sh_in s) (byte 10) = (line, None, r1) ->
  Fields line = "exit" :: args ->
  handleInput w1 line (sh_exit s) (sh_os s) =
  Returns {| d_err := None; d_out := w1;
             d_exit := {| Chan.cap := Chan.cap (sh_exit s); Chan.len := 1 |};
             d_os := sh_os s |} /\
  loop 1 s =
  Running {| sh_in := r1; sh_out := w1; sh_err := sh_err s;
             sh_exit := {| Chan.cap := Chan.cap (sh_exit s); Chan.len := 1 |};
             sh_os := sh_os s |} /\
  loop (2 + n) s =
  Returned {| sh_in := r1;
              sh_out := writes w1 ["exiting gracefully..." ++ nl];
              sh_err := sh_err s;
              sh_exit := {| Chan.cap := Chan.cap (sh_exit s); Chan.len := 0 |};
              sh_os := sh_os s |}.
Proof.
  intros L C P Rd F.
  assert (D : handleInput w1 line (sh_exit s) (sh_os s) =
              Returns {| d_err := None; d_out := w1;
                         d_exit := {| Chan.cap := Chan.cap (sh_exit s);
                                      Chan.len := 1 |};
                         d_os := sh_os s |}).
  { unfold handleInput. cbv zeta. rewrite Fields_TrimSpace, F. simpl.
    unfold Chan.send. rewrite L.
    destruct (Nat.ltb_spec 0 (Chan.cap (sh_exit s))); [reflexivity|lia]. }
  assert (B : loopBody s =
              Continue {| sh_in := r1; sh_out := w1; sh_err := sh_err s;
                          sh_exit := {| Chan.cap := Chan.cap (sh_exit s);
                                        Chan.len := 1 |};
                          sh_os := sh_os s |}).
  { unfold loopBody. apply tryRecv_None in L. now rewrite L, P, Rd, D. }
  split; [exact D|]. split.
  - simpl. now rewrite B.
  - simpl. now rewrite B.
Qed.

(** C3: a pass whose read fails, at the end of the input or otherwise,
    writes the error to the error writer and goes on to the next pass.
    The loop returns only from a pass that found the exit signal; with a
    reader that keeps failing and no signal in the channel, the loop is
    still running after any number of passes. *)
Theorem read_failure_restarts_the_loop
    (s : shell) (w1 : W) (text : string) (err : error) (r1 : R) :
  Chan.len (sh_exit s) = 0 ->
  printPrompt (sh_out s) (sh_os s) = (None, w1) ->
  ReadString (sh_in s) (byte 10) = (text, Some err, r1) ->
  loopBody s =
  Continue {| sh_in := r1; sh_out := w1;
              sh_err := writes (sh_err s) [err ++ nl];
              sh_exit := sh_exit s; sh_os := sh_os s |} /\
  (forall (n : nat) (t t' : shell),
      loop n t = Returned t' ->
      exists k u,
        k < n /\ loop k t = Running u /\
        0 < Chan.len (sh_exit u) /\ loopBody u = Return t') /\
  (r1 = sh_in s ->
   forall n : nat,
     exists u,
       loop n s = Running u /\ sh_in u = sh_in s /\
       sh_exit u = sh_exit s /\ sh_os u = sh_os s).
Proof.
  intros L P Rd. split; [|split].
  - unfold loopBody. apply tryRecv_None in L. now rewrite L, P, Rd.
  - intros n t t' E.
    destruct (loop_Returned _ _ _ E) as (k & u & Hk & Hl & Hu).
    exists k, u. repeat split; auto.
    now apply loopBody_Return in Hu.
  - intros -> n. clear P w1.
    assert (G : forall n t,
               Chan.len (sh_exit t) = 0 ->
               ReadString (sh_in t) (byte 10) = (text, Some err, sh_in t) ->
               exists u,
                 loop n t = Running u /\ sh_in u = sh_in t /\
                 sh_exit u = sh_exit t /\ sh_os u = sh_os t).
    { clear. intros n. induction n as [|n IH]; intros t Lt Rt.
      - exists t. simpl. auto.
      - destruct (loopBody_failing_read t text err Lt Rt)
          as (t1 & B & I1 & E1 & O1).
        destruct (IH t1) as (u & Hu & Iu & Eu & Ou).
        + now rewrite E1.
        + now rewrite I1.
        + exists u. simpl. rewrite B. repeat split; congruence. }
    now apply G.
Qed.


End Properties.

(** ** Further facts about the program *)

Section Further.

Context {W R OS : Type} `{Writer W} `{Reader R} `{Platform OS}.

(** Decide the [switch] of [handleInput] on a name that is not known. *)
Ltac switch_cases :=
  repeat match goal with
         | |- context [if (?a =? ?b)%string then _ else _] =>
             destruct (String.eqb_spec a b); [subst|]
         end.

(** The command of a line is [exit] or it is not. *)
Lemma exitLine_dec (line : string) :
  exitLine line \/ (forall args, Fields line <> "exit" :: args).
Proof.
  unfold exitLine. destruct (Fields line) as [|name args].
  - right. discriminate.
  - destruct (String.eqb_spec name "exit") as [->|N].
    + left. now exists args.
    + right. intros a [= E _]. contradiction.
Qed.

(** Dispatch of any line but an [exit] line does not block on the send
    and leaves the exit channel alone; when it does not return, it waits
    for a command that is not a built-in and never exits. *)
Lemma handleInput_other (w : W) (input : string) (exit : Chan.t) (os : OS) :
  (forall args, Fields input <> "exit" :: args) ->
  match handleInput w input exit os with
  | Returns d => d_exit d = exit
  | Blocks => False
  | Waits =>
      exists name args,
        Fields input = name :: args /\ ~ In name builtins /\
        exec_Run name args os = Forever
  end.
Proof.
  intros N. unfold handleInput. cbv zeta. rewrite Fields_TrimSpace.
  destruct (Fields input) as [|name args]; [reflexivity|].
  switch_cases;
    try (exfalso; now apply (N args));
    try (match goal with
         | |- context [let (_, _) := ?c in _] => destruct c
         end; reflexivity).
  unfold executeCommand.
  destruct (exec_Run name args os) as [[err os']|] eqn:E; [reflexivity|].
  exists name, args. split; [reflexivity|]. split; [|exact E].
  simpl. intuition congruence.
Qed.

(** A line whose first field is no built-in goes to [executeCommand]. *)
Lemma handleInput_external
    (w : W) (input : string) (exit : Chan.t) (os : OS)
    (name : string) (args : list string) :
  Fields input = name :: args ->
  ~ In name builtins ->
  handleInput w input exit os =
  match exec_Run name args os with
  | Back (err, os') =>
      Returns {| d_err := err; d_out := w; d_exit := exit; d_os := os' |}
  | Forever => Waits
  end.
Proof.
  intros F N. unfold handleInput. cbv zeta. rewrite Fields_TrimSpace, F.
  switch_cases; try (exfalso; apply N; simpl; tauto).
  reflexivity.
Qed.


(** A pass that reads any other line, by the outcome of its dispatch. *)
Lemma loopBody_other_line (s : shell) (w1 : W) (line : string) (r1 : R) :
  Chan.len (sh_exit s) = 0 ->
  printPrompt (sh_out s) (sh_os s) = (None, w1) ->
  ReadString (sh_in s) (byte 10) = (line, None, r1) ->
  (forall args, Fields line <> "exit" :: args) ->
  match handleInput w1 line (sh_exit s) (sh_os s) with
  | Returns d =>
      loopBody s =
      Continue {| sh_in := r1; sh_out := d_out d;
                  sh_err := match d_err d with
                            | Some err => writes (sh_err s) [err ++ nl]
                            | None => sh_err s
                            end;
                  sh_exit := sh_exit s; sh_os := d_os d |}
  | Blocks => False
  | Waits =>
      loopBody s = Waiting /\
      exists name args,
        Fields line = name :: args /\ ~ In name builtins /\
        exec_Run name args (sh_os s) = Forever
  end.
Proof.
  intros L P Rd N.
  pose proof (handleInput_other w1 line (sh_exit s) (sh_os s) N) as O.
  unfold loopBody. apply tryRecv_None in L. rewrite L, P, Rd.
  destruct (handleInput w1 line (sh_exit s) (sh_os s)) as [d| |].
  - rewrite O. reflexivity.
  - exact O.
  - split; [reflexivity|exact O].
Qed.

(** A pass that goes on with a signal in the channel read an [exit]
    line. *)
Lemma loopBody_sent (s s1 : shell) :
  loopBody s = Continue s1 ->
  sh_exit s1 <> sh_exit s ->
  exists w1 line r1,
    printPrompt (sh_out s) (sh_os s) = (None, w1) /\
    ReadString (sh_in s) (byte 10) = (line, None, r1) /\
    exitLine line.
Proof.
  unfold loopBody.
  destruct (Chan.tryRecv (sh_exit s)) as [ch|]; [discriminate|].
  destruct (printPrompt (sh_out s) (sh_os s)) as [[e|] w1].
  { intros [= <-] N. now elim N. }
  destruct (ReadString (sh_in s) (byte 10)) as [[line [e|]] r1].
  { intros [= <-] N. now elim N. }
  destruct (exitLine_dec line) as [X|X].
  - intros _ _. now exists w1, line, r1.
  - pose proof (handleInput_other w1 line (sh_exit s) (sh_os s) X) as O.
    destruct (handleInput w1 line (sh_exit s) (sh_os s)) as [d| |].
    + intros [= <-] N. simpl in N. contradiction.
    + contradiction.
    + discriminate.
Qed.

Lemma makeEach_app (a b : list string) (os : OS) :
  makeEach (a ++ b)%list os =
  match makeEach a os with
  | (None, os1) => makeEach b os1
  | (Some err, os1) => (Some err, os1)
  end.
Proof.
  revert os. induction a as [|x a IH]; intros os; [reflexivity|].
  simpl. destruct (os_Mkdir x os) as [[err|] os1]; [reflexivity|apply IH].
Qed.

Lemma removeEach_app (a b : list string) (os : OS) :
  removeEach (a ++ b)%list os =
  match removeEach a os with
  | (None, os1) => removeEach b os1
  | (Some err, os1) => (Some err, os1)
  end.
Proof.
  revert os. induction a as [|x a IH]; intros os; [reflexivity|].
  simpl. destruct (os_Remove x os) as [[err|] os1]; [reflexivity|apply IH].
Qed.

(** X1: when the user or the working directory cannot be looked up, the
    pass writes that error to the error writer and starts over without
    reading: nothing is written to the output, no line is consumed, no
    command runs.  As nothing changes the system the failure stays, and
    after [n] passes the loop is still running with [n] error lines
    written and everything else as at the start. *)
Theorem failing_prompt_starves_the_loop (s : shell) (e : error) (n : nat) :
  Chan.len (sh_exit s) = 0 ->
  user_Current (sh_os s) = Err e \/
  (exists u, user_Current (sh_os s) = Ok u /\ os_Getwd (sh_os s) = Err e) ->
  loop n s =
  Running {| sh_in := sh_in s; sh_out := sh_out s;
             sh_err := writes (sh_err s) (repeat (e ++ nl) n);
             sh_exit := sh_exit s; sh_os := sh_os s |}.
Proof.
  destruct s as [r w errW exit os]. simpl. intros L F.
  assert (P : printPrompt w os = (Some e, w)).
  { unfold printPrompt. destruct F as [->|(u & -> & ->)]; reflexivity. }
  revert errW. induction n as [|n IH]; intros errW; [reflexivity|].
  simpl loop. unfold loopBody. simpl.
  apply tryRecv_None in L as T. rewrite T, P.
  rewrite IH. reflexivity.
Qed.

(** X2: no line but an [exit] line makes the loop return or block on the
    exit channel.  A pass that reads such a line and whose dispatch
    returns goes on: the reader is past the line, the exit channel is as
    before, and the error writer gets the error of the command and a line
    feed when there is one, and nothing otherwise.  The one other outcome
    is that the line names a command that is no built-in and never exits:
    the pass then waits for it for ever. *)
Theorem other_lines_keep_the_loop_going
    (s : shell) (w1 : W) (line : string) (r1 : R) :
  Chan.len (sh_exit s) = 0 ->
  printPrompt (sh_out s) (sh_os s) = (None, w1) ->
  ReadString (sh_in s) (byte 10) = (line, None, r1) ->
  ~ exitLine line ->
  match handleInput w1 line (sh_exit s) (sh_os s) with
  | Returns d =>
      loopBody s =
      Continue {| sh_in := r1; sh_out := d_out d;
                  sh_err := match d_err d with
                            | Some err => writes (sh_err s) [err ++ nl]
                            | None => sh_err s
                            end;
                  sh_exit := sh_exit s; sh_os := d_os d |}
  | Blocks => False
  | Waits =>
      loopBody s = Waiting /\
      exists name args,
        Fields line = name :: args /\ ~ In name builtins /\
        exec_Run name args (sh_os s) = Forever
  end.
Proof.
  intros L P Rd N.
  apply loopBody_other_line; auto.
  intros args F. apply N. now exists args.
Qed.

(** X3: a line whose first field is not, letter for letter, one of the
    eight built-in names is run as an external command with the fields
    after it as arguments.  When the command exits, its error is the
    result and the writer and the exit channel are left alone; when it
    never exits, dispatch waits for ever. *)
Theorem unknown_names_run_as_commands
    (w : W) (input : string) (exit : Chan.t) (os : OS)
    (name : string) (args : list string) :
  Fields input = name :: args ->
  ~ In name builtins ->
  handleInput w input exit os =
  match exec_Run name args os with
  | Back (err, os') =>
      Returns {| d_err := err; d_out := w; d_exit := exit; d_os := os' |}
  | Forever => Waits
  end.
Proof. intros F N. now apply handleInput_external. Qed.

(** X4: only [exit] touches the exit channel.  Dispatch of a line whose
    command is not [exit] never blocks on the send, and when it returns
    the channel is as it was; and whatever the line, a dispatch that
    returns has received nothing and sent at most one signal. *)
Theorem only_exit_touches_the_channel
    (w : W) (input : string) (exit : Chan.t) (os : OS) :
  (~ exitLine input ->
   handleInput w input exit os <> Blocks /\
   forall d, handleInput w input exit os = Returns d -> d_exit d = exit) /\
  (forall d,
      handleInput w input exit os = Returns d ->
      Chan.cap (d_exit d) = Chan.cap exit /\
      Chan.len exit <= Chan.len (d_exit d) <= S (Chan.len exit)).
Proof.
  split.
  - intros N.
    assert (O : match handleInput w input exit os with
                | Returns d => d_exit d = exit
                | Blocks => False
                | Waits =>
                    exists name args,
                      Fields input = name :: args /\ ~ In name builtins /\
                      exec_Run name args os = Forever
                end).
    { apply handleInput_other. intros args F. apply N. now exists args. }
    destruct (handleInput w input exit os) as [d| |].
    + split; [discriminate|]. now intros d' [= <-].
    + contradiction.
    + split; discriminate.
  - intros d D. apply handleInput_exit in D as [->|S]; [lia|].
    unfold Chan.send in S.
    destruct (Chan.len exit <? Chan.cap exit)%nat; [|discriminate].
    injection S as S. rewrite <- S. simpl. lia.
Qed.

(** X5: [env], [echo], [pwd], [history] and [exit] leave the system as it
    is: after dispatch of a line with one of these commands the state of
    the system is the one before. *)
Theorem reporting_builtins_leave_system
    (w : W) (input : string) (exit : Chan.t) (os : OS)
    (name : string) (args : list string) (d : dispatched) :
  Fields input = name :: args ->
  In name ["env"; "exit"; "echo"; "pwd"; "history"] ->
  handleInput w input exit os = Returns d ->
  d_os d = os.
Proof.
  intros F I. unfold handleInput. cbv zeta. rewrite Fields_TrimSpace, F.
  simpl in I. destruct I as [<-|[<-|[<-|[<-|[<-|[]]]]]]; simpl.
  - destruct (EnvironmentVariables w args os). now intros [= <-].
  - destruct (Chan.send exit); [|discriminate]. now intros [= <-].
  - destruct (Echo w args). now intros [= <-].
  - destruct (PrintWorkingDirectory w os). now intros [= <-].
  - destruct (History w args). now intros [= <-].
Qed.

(** X6: a line is dispatched as its fields joined by single spaces are:
    joining the fields of a line and splitting again gives the same
    fields, so both lines have the same outcome. *)
Theorem line_dispatches_as_its_fields
    (w : W) (line : string) (exit : Chan.t) (os : OS) :
  Fields (Join (Fields line) " ") = Fields line /\
  handleInput w (Join (Fields line) " ") exit os = handleInput w line exit os.
Proof.
  assert (E : Fields (Join (Fields line) " ") = Fields line)
    by (apply Fields_Join; [apply Fields_solid|apply Fields_nonempty]).
  split; [exact E|]. now apply handleInput_Fields.
Qed.

(** X7: white space before and after a line, such as the line feed the
    reader leaves at its end, changes nothing in its dispatch. *)
Theorem padding_is_ignored
    (w : W) (l line r : string) (exit : Chan.t) (os : OS) :
  Blank l -> Blank r ->
  handleInput w (l ++ line ++ r) exit os = handleInput w line exit os.
Proof.
  intros Bl Br. apply handleInput_Fields. now apply Fields_padded.
Qed.


(** X9: [mkdir] and [rm] on two lists of operands in a row are the
    command on the first list followed, when that succeeded, by the
    command on the second: the second is run on the system the first
    left, and when the first fails its error is the result and the
    second list is not touched. *)
Theorem mkdir_rm_compose (a b : list string) (os : OS) :
  a <> [] -> b <> [] ->
  MakeDirectory (a ++ b)%list os =
  match MakeDirectory a os with
  | (None, os1) => MakeDirectory b os1
  | (Some err, os1) => (Some err, os1)
  end /\
  RemoveFile (a ++ b)%list os =
  match RemoveFile a os with
  | (None, os1) => RemoveFile b os1
  | (Some err, os1) => (Some err, os1)
  end.
Proof.
  intros Na Nb.
  destruct a as [|x a]; [contradiction|].
  destruct b as [|y b]; [contradiction|].
  split.
  - change (MakeDirectory ((x :: a) ++ y :: b)%list os)
      with (makeEach ((x :: a) ++ y :: b)%list os).
    rewrite makeEach_app. reflexivity.
  - change (RemoveFile ((x :: a) ++ y :: b)%list os)
      with (removeEach ((x :: a) ++ y :: b)%list os).
    rewrite removeEach_app. reflexivity.
Qed.

(** X10: the prompt and [pwd] ask the system the same thing.  When the
    prompt is printed, it is the working directory, the user name in
    brackets and the dollar sign, and [pwd] in that state prints that
    directory and succeeds; when [pwd] fails it writes nothing, and the
    prompt fails in that state too. *)
Theorem prompt_agrees_with_pwd (w w' : W) (os : OS) :
  printPrompt w os = (None, w') ->
  exists wd username,
    os_Getwd os = Ok wd /\ user_Current os = Ok username /\
    w' = writes w [wd ++ " [" ++ username ++ "] $ "] /\
    (forall w2, PrintWorkingDirectory w2 os = (None, writes w2 [wd ++ nl])) /\
    (forall os2 w2 w3 err,
        PrintWorkingDirectory w2 os2 = (Some err, w3) ->
        w3 = w2 /\ forall w4, fst (printPrompt w4 os2) <> None).
Proof.
  unfold printPrompt, PrintWorkingDirectory.
  destruct (user_Current os) as [u|e]; [|discriminate].
  destruct (os_Getwd os) as [wd|e]; [|discriminate].
  unfold Fprint.
  destruct (Write w (wd ++ " [" ++ u ++ "] $ ")) as [w1 e1] eqn:Wr.
  intros [= -> <-]. exists wd, u. repeat split.
  - change (w1 = fst (Write w (wd ++ " [" ++ u ++ "] $ "))). now rewrite Wr.
  - destruct (os_Getwd os2); congruence.
  - destruct (os_Getwd os2) as [wd2|e2]; [discriminate|].
    destruct (user_Current os2); simpl; discriminate.
Qed.

(** X11: the loop returns only after an [exit] line.  When a run that
    starts with an empty channel returns, an earlier pass of it printed
    the prompt, read a line without error and found [exit] as its
    command; the return is not before the pass after that one. *)
Theorem return_needs_an_exit_line (n : nat) (s t : shell) :
  Chan.len (sh_exit s) = 0 ->
  loop n s = Returned t ->
  exists k u w1 line r1,
    k + 2 <= n /\
    loop k s = Running u /\
    printPrompt (sh_out u) (sh_os u) = (None, w1) /\
    ReadString (sh_in u) (byte 10) = (line, None, r1) /\
    exitLine line.
Proof.
  revert s. induction n as [|n IH]; intros s L E; [discriminate|].
  simpl in E. destruct (loopBody s) as [s1|s1| |] eqn:B.
  - destruct (Nat.eq_dec (Chan.len (sh_exit s1)) 0) as [L1|L1].
    + destruct (IH s1 L1 E) as (k & u & w1 & line & r1 & Hk & Hl & Hp & Hr & Hx).
      exists (S k), u, w1, line, r1. repeat split; auto; [lia|].
      simpl. now rewrite B.
    + destruct (loopBody_sent s s1 B) as (w1 & line & r1 & Hp & Hr & Hx).
      { intros Eq. rewrite Eq in L1. contradiction. }
      exists 0, s, w1, line, r1. repeat split; auto.
      destruct n; [discriminate|lia].
  - apply loopBody_Return in B as [Lp _]. lia.
  - discriminate.
  - discriminate.
Qed.

(** X12: dispatch fails to return in two cases and no other.  It blocks
    on the send exactly when the command is [exit] and the exit channel
    is full; it waits for ever exactly when the first field is no
    built-in name and the command started under that name never exits. *)
Theorem dispatch_blocks_only_on_full_channel
    (w : W) (input : string) (exit : Chan.t) (os : OS) :
  (handleInput w input exit os = Blocks <->
   exitLine input /\ Chan.cap exit <= Chan.len exit) /\
  (handleInput w input exit os = Waits <->
   exists name args,
     Fields input = name :: args /\ ~ In name builtins /\
     exec_Run name args os = Forever).
Proof.
  split; split.
  - intros B. split; [|now apply handleInput_Blocks in B].
    destruct (exitLine_dec input) as [X|X]; [exact X|].
    pose proof (handleInput_other w input exit os X) as O.
    rewrite B in O. contradiction.
  - intros [[args F] C]. unfold handleInput. cbv zeta.
    rewrite Fields_TrimSpace, F. simpl. unfold Chan.send.
    destruct (Nat.ltb_spec (Chan.len exit) (Chan.cap exit)); [lia|reflexivity].
  - intros Wt. destruct (exitLine_dec input) as [[args F]|X].
    + exfalso. revert Wt. unfold handleInput. cbv zeta.
      rewrite Fields_TrimSpace, F. simpl.
      destruct (Chan.send exit); discriminate.
    + pose proof (handleInput_other w input exit os X) as O.
      now rewrite Wt in O.
  - intros (name & args & F & N & E).
    now rewrite (handleInput_external w input exit os name args F N), E.
Qed.

(** X13: the buffer of the exit channel is what keeps [exit] from
    deadlocking.  With a channel without buffer, a pass that reads an
    [exit] line blocks on the send, and the run ends there, deadlocked,
    without the notice. *)
Theorem unbuffered_channel_deadlocks_on_exit
    (s : shell) (w1 : W) (line : string) (r1 : R) (n : nat) :
  Chan.cap (sh_exit s) = 0 ->
  Chan.len (sh_exit s) = 0 ->
  printPrompt (sh_out s) (sh_os s) = (None, w1) ->
  ReadString (sh_in s) (byte 10) = (line, None, r1) ->
  exitLine line ->
  loopBody s = Stuck /\ loop (S n) s = Deadlocked.
Proof.
  intros C L P Rd [args F].
  assert (B : loopBody s = Stuck).
  { unfold loopBody. apply tryRecv_None in L as T. rewrite T, P, Rd.
    unfold handleInput. cbv zeta. rewrite Fields_TrimSpace, F. simpl.
    unfold Chan.send. rewrite L, C. reflexivity. }
  split; [exact B|]. simpl. now rewrite B.
Qed.

(** X14: a command that never exits hangs the shell.  A pass that reads
    a line whose first field is no built-in name waits for the command
    started under that name; when the command never exits the pass never
    ends, and the run neither returns nor reads another line. *)
Theorem hung_command_hangs_the_loop
    (s : shell) (w1 : W) (line : string) (r1 : R)
    (name : string) (args : list string) (n : nat) :
  Chan.len (sh_exit s) = 0 ->
  printPrompt (sh_out s) (sh_os s) = (None, w1) ->
  ReadString (sh_in s) (byte 10) = (line, None, r1) ->
  Fields line = name :: args ->
  ~ In name builtins ->
  exec_Run name args (sh_os s) = Forever ->
  loopBody s = Waiting /\ loop (S n) s = Hung.
Proof.
  intros L P Rd F N E.
  assert (B : loopBody s = Waiting).
  { unfold loopBody. apply tryRecv_None in L. rewrite L, P, Rd.
    now rewrite (handleInput_external w1 line (sh_exit s) (sh_os s) name args F N), E. }
  split; [exact B|]. simpl. now rewrite B.
Qed.

End Further.

(** ** The program at work

    Runs of the program on the in-memory writer, the finite reader and
    the small machine. *)

(** On a buffer, the writes add their texts one after the other. *)
Lemma writes_Buffer (b : Buffer) (ps : list string) :
  written (writes b ps) = written b ++ fold_right String.append "" ps.
Proof.
  revert b. induction ps as [|p ps IH]; intros b.
  - simpl. now rewrite sapp_nil_r.
  - change (writes b (p :: ps))
      with (writes {| written := written b ++ p |} ps).
    rewrite IH. simpl. now rewrite sapp_assoc.
Qed.

(** The line [exit] ends the session at the next pass; [echo no], queued
    behind it, stays unread. *)
Lemma exit_ends_loop_at_next_check_witness :
  main 2 {| unread := "exit" ++ nl ++ "echo no" ++ nl |} buffer0 buffer0 machine0 =
  Returned
    {| sh_in := {| unread := "echo no" ++ nl |};
       sh_out :=
         {| written := "/home/ada [ada] $ exiting gracefully..." ++ nl |};
       sh_err := buffer0;
       sh_exit := {| Chan.cap := 2; Chan.len := 0 |};
       sh_os := machine0 |}.
Proof.
  refine (proj2 (proj2
    (exit_ends_loop_at_next_check
       (start {| unread := "exit" ++ nl ++ "echo no" ++ nl |}
              buffer0 buffer0 (Chan.make 2) machine0)
       {| written := "/home/ada [ada] $ " |}
       ("exit" ++ nl) {| unread := "echo no" ++ nl |} [] 0 _ _ _ _ _)));
    first [reflexivity | simpl; lia].
Defined.

(** A line of a space, a tab, a no-break space and a line feed. *)
Lemma blank_line_is_noop_witness :
  handleInput buffer0 (" " ++ rune1 9 ++ rune2 0xC2 0xA0 ++ nl)
    (Chan.make 2) machine0 =
  Returns {| d_err := None; d_out := buffer0; d_exit := Chan.make 2;
             d_os := machine0 |}.
Proof.
  apply (blank_line_is_noop buffer0 (" " ++ rune1 9 ++ rune2 0xC2 0xA0 ++ nl)
           (Chan.make 2) machine0).
  apply (Blank_white " "); [simpl; tauto|].
  apply (Blank_white (rune1 9)); [simpl; tauto|].
  apply (Blank_white (rune2 0xC2 0xA0)); [simpl; tauto|].
  apply (Blank_white nl ""); [simpl; tauto|].
  apply Blank_nil.
Defined.

(** At the end of the input the read fails with [EOF]; the pass reports it
    and the loop goes on. *)
Lemma read_failure_restarts_the_loop_witness :
  loopBody (start {| unread := "" |} buffer0 buffer0 (Chan.make 2) machine0) =
  Continue
    {| sh_in := {| unread := "" |};
       sh_out := {| written := "/home/ada [ada] $ " |};
       sh_err := {| written := "EOF" ++ nl |};
       sh_exit := Chan.make 2;
       sh_os := machine0 |} /\
  forall n : nat,
    exists u,
      loop n (start {| unread := "" |} buffer0 buffer0 (Chan.make 2) machine0) =
      Running u /\
      sh_in u = {| unread := "" |} /\ sh_exit u = Chan.make 2 /\
      sh_os u = machine0.
Proof.
  assert (T := read_failure_restarts_the_loop
              (start {| unread := "" |} buffer0 buffer0 (Chan.make 2) machine0)
              {| written := "/home/ada [ada] $ " |} "" "EOF" {| unread := "" |}).
  destruct T as [A [_ C]]; try reflexivity.
  split; [exact A|exact (C eq_refl)].
Defined.


(** [mkdir a] fails on the machine, where [a] exists, and writes nothing
    to the writer. *)
Lemma quiet_builtins_leave_writer_witness :
  match handleInput buffer0 ("mkdir a" ++ nl) (Chan.make 2) machine0 with
  | Returns d => d_out d = buffer0
  | Blocks => "mkdir" = "exit" /\ Chan.send (Chan.make 2) = None
  | Waits => False
  end.
Proof.
  refine (proj1 (quiet_builtins_leave_writer buffer0 ("mkdir a" ++ nl)
                   (Chan.make 2) machine0 "mkdir" ["a"] _) _).
  - reflexivity.
  - simpl. tauto.
Defined.

(** [mkdir x a y] where [a] exists: [x] is made, the error is the one for
    [a], and no call is made for [y]. *)
Example mkdir_x_a_y :
  MakeDirectory ["x"; "a"; "y"] machine0 =
  (Some "mkdir a: file exists",
   {| m_user := "ada"; m_cwd := "/home/ada";
      m_env := [("HOME", "/home/ada"); ("FOO", "bar")];
      m_dirs := ["x"; "/home/ada"; "a"]; m_files := ["notes.txt"];
      m_calls := ["mkdir a"; "mkdir x"] |}).
Proof. reflexivity. Qed.

(** [rm notes.txt gone a]: the file is removed, the error is the one for
    [gone], and [a] is left alone. *)
Example rm_notes_gone_a :
  RemoveFile ["notes.txt"; "gone"; "a"] machine0 =
  (Some "remove gone: no such file or directory",
   {| m_user := "ada"; m_cwd := "/home/ada";
      m_env := [("HOME", "/home/ada"); ("FOO", "bar")];
      m_dirs := ["/home/ada"; "a"]; m_files := [];
      m_calls := ["remove gone"; "remove notes.txt"] |}).
Proof. reflexivity. Qed.

Example cd_then_pwd :
  exists s,
    main 2 {| unread := "cd a" ++ nl ++ "pwd" ++ nl |} buffer0 buffer0 machine0 =
    Running s /\
    written (sh_out s) =
    "/home/ada [ada] $ /home/ada/a [ada] $ /home/ada/a" ++ nl.
Proof. eexists. split; reflexivity. Qed.

Example env_FOO_BAR :
  written (snd (EnvironmentVariables buffer0 ["FOO"; "BAR"] machine0)) =
  "FOO=bar" ++ nl ++ "BAR not found in environment variables" ++ nl.
Proof. reflexivity. Qed.

Example env_all :
  written (snd (EnvironmentVariables buffer0 [] machine0)) =
  "HOME=/home/ada" ++ nl ++ "FOO=bar" ++ nl.
Proof. reflexivity. Qed.

Example echo_spaced :
  handleInput buffer0 ("echo   a   b" ++ nl) (Chan.make 2) machine0 =
  Returns {| d_err := None; d_out := {| written := "a b" ++ nl |};
             d_exit := Chan.make 2; d_os := machine0 |}.
Proof. reflexivity. Qed.

Example echo_alone :
  Echo buffer0 [] = (None, {| written := nl |}).
Proof. reflexivity. Qed.

(** A last line without line feed is not dispatched: the read returns it
    with [EOF]. *)
Example exit_without_newline :
  loopBody (start {| unread := "exit" |} buffer0 buffer0 (Chan.make 2) machine0) =
  Continue
    {| sh_in := {| unread := "" |};
       sh_out := {| written := "/home/ada [ada] $ " |};
       sh_err := {| written := "EOF" ++ nl |};
       sh_exit := Chan.make 2; sh_os := machine0 |}.
Proof. reflexivity. Qed.

(** A channel without buffer would block the send. *)
Example exit_on_unbuffered_channel :
  handleInput buffer0 ("exit" ++ nl) (Chan.make 0) machine0 = Blocks.
Proof. reflexivity. Qed.

(** *** Further runs *)

(** Three passes on a machine that does not know its user: three error
    lines, no prompt, and the [exit] line still unread. *)
Lemma failing_prompt_starves_the_loop_witness :
  loop 3 (start {| unread := "exit" ++ nl |} buffer0 buffer0 (Chan.make 2)
            {| nb_machine := machine0 |}) =
  Running
    {| sh_in := {| unread := "exit" ++ nl |};
       sh_out := buffer0;
       sh_err :=
         {| written :=
              "user: unknown userid 1000" ++ nl ++
              "user: unknown userid 1000" ++ nl ++
              "user: unknown userid 1000" ++ nl |};
       sh_exit := Chan.make 2;
       sh_os := {| nb_machine := machine0 |} |}.
Proof.
  refine (failing_prompt_starves_the_loop
            (start {| unread := "exit" ++ nl |} buffer0 buffer0 (Chan.make 2)
               {| nb_machine := machine0 |})
            "user: unknown userid 1000" 3 _ _).
  - reflexivity.
  - left. reflexivity.
Defined.

(** [mkdir a] fails where [a] exists; the pass reports it and goes on. *)
Lemma other_lines_keep_the_loop_going_witness :
  loopBody (start {| unread := "mkdir a" ++ nl |} buffer0 buffer0
              (Chan.make 2) machine0) =
  Continue {| sh_in := {| unread := "" |};
              sh_out := {| written := "/home/ada [ada] $ " |};
              sh_err := {| written := "mkdir a: file exists" ++ nl |};
              sh_exit := Chan.make 2;
              sh_os := called "mkdir a" machine0 |}.
Proof.
  refine (other_lines_keep_the_loop_going
            (start {| unread := "mkdir a" ++ nl |} buffer0 buffer0
               (Chan.make 2) machine0)
            {| written := "/home/ada [ada] $ " |} ("mkdir a" ++ nl)
            {| unread := "" |} _ _ _ _); try reflexivity.
  intros [args F]. vm_compute in F. discriminate F.
Defined.

(** [Echo] is not [echo]: the line is run as a command, which the
    machine does not have. *)
Lemma unknown_names_run_as_commands_witness :
  handleInput buffer0 ("Echo hi" ++ nl) (Chan.make 2) machine0 =
  Returns
    {| d_err := Some ("exec: " ++ rune1 34 ++ "Echo" ++ rune1 34
                      ++ ": executable file not found in $PATH");
       d_out := buffer0; d_exit := Chan.make 2;
       d_os := called "exec Echo hi" machine0 |}.
Proof.
  refine (unknown_names_run_as_commands buffer0 ("Echo hi" ++ nl)
            (Chan.make 2) machine0 "Echo" ["hi"] _ _).
  - reflexivity.
  - simpl. intros [E|[E|[E|[E|[E|[E|[E|[E|[]]]]]]]]]; discriminate E.
Defined.

(** [pwd] prints and changes nothing. *)
Lemma reporting_builtins_leave_system_witness :
  exists d,
    handleInput buffer0 ("pwd" ++ nl) (Chan.make 2) machine0 = Returns d /\
    d_out d = {| written := "/home/ada" ++ nl |} /\
    d_os d = machine0.
Proof.
  eexists. split; [reflexivity|]. split; [reflexivity|].
  refine (reporting_builtins_leave_system buffer0 ("pwd" ++ nl) (Chan.make 2)
            machine0 "pwd" [] _ _ _ _).
  - reflexivity.
  - simpl. tauto.
  - reflexivity.
Defined.

Lemma padding_is_ignored_witness :
  handleInput buffer0 ("  " ++ "echo hi" ++ nl) (Chan.make 2) machine0 =
  handleInput buffer0 "echo hi" (Chan.make 2) machine0.
Proof.
  refine (padding_is_ignored buffer0 "  " "echo hi" nl (Chan.make 2) machine0
            _ _).
  - apply (Blank_white " " " "); [simpl; tauto|].
    apply (Blank_white " " ""); [simpl; tauto|]. apply Blank_nil.
  - apply (Blank_white nl ""); [simpl; tauto|]. apply Blank_nil.
Defined.


Lemma mkdir_rm_compose_witness :
  MakeDirectory (["x"] ++ ["a"; "y"])%list machine0 =
  match MakeDirectory ["x"] machine0 with
  | (None, os1) => MakeDirectory ["a"; "y"] os1
  | (Some err, os1) => (Some err, os1)
  end /\
  RemoveFile (["x"] ++ ["a"; "y"])%list machine0 =
  match RemoveFile ["x"] machine0 with
  | (None, os1) => RemoveFile ["a"; "y"] os1
  | (Some err, os1) => (Some err, os1)
  end.
Proof.
  refine (mkdir_rm_compose ["x"] ["a"; "y"] machine0 _ _); discriminate.
Defined.

Lemma prompt_agrees_with_pwd_witness :
  exists wd username,
    os_Getwd machine0 = Ok wd /\ user_Current machine0 = Ok username /\
    {| written := "/home/ada [ada] $ " |} =
    writes buffer0 [wd ++ " [" ++ username ++ "] $ "] /\
    (forall w2, PrintWorkingDirectory w2 machine0 =
                (None, writes w2 [wd ++ nl])) /\
    (forall (os2 : Machine) (w2 w3 : Buffer) err,
        PrintWorkingDirectory w2 os2 = (Some err, w3) ->
        w3 = w2 /\ forall w4 : Buffer, fst (printPrompt w4 os2) <> None).
Proof.
  refine (prompt_agrees_with_pwd buffer0 {| written := "/home/ada [ada] $ " |}
            machine0 _).
  reflexivity.
Defined.

Lemma return_needs_an_exit_line_witness :
  exists k u w1 line r1,
    k + 2 <= 3 /\
    loop k (start {| unread := "echo hi" ++ nl ++ "exit" ++ nl |}
              buffer0 buffer0 (Chan.make 2) machine0) = Running u /\
    printPrompt (sh_out u) (sh_os u) = (None, w1) /\
    ReadString (sh_in u) (byte 10) = (line, None, r1) /\
    exitLine line.
Proof.
  refine (return_needs_an_exit_line 3
            (start {| unread := "echo hi" ++ nl ++ "exit" ++ nl |}
               buffer0 buffer0 (Chan.make 2) machine0) _ _ _).
  - reflexivity.
  - reflexivity.
Defined.

(** [runLoop] with a channel made without buffer. *)
Lemma unbuffered_channel_deadlocks_on_exit_witness :
  runLoop 5 {| unread := "exit" ++ nl |} buffer0 buffer0 (Chan.make 0) machine0 =
  Deadlocked.
Proof.
  refine (proj2
    (unbuffered_channel_deadlocks_on_exit
       (start {| unread := "exit" ++ nl |} buffer0 buffer0 (Chan.make 0) machine0)
       {| written := "/home/ada [ada] $ " |} ("exit" ++ nl) {| unread := "" |} 4
       _ _ _ _ _)); try reflexivity.
  exists []. reflexivity.
Defined.

(** On a machine where commands do not exit, the line [top] hangs the
    shell; the [exit] line behind it is never read. *)
Lemma hung_command_hangs_the_loop_witness :
  runLoop 5 {| unread := "top" ++ nl ++ "exit" ++ nl |} buffer0 buffer0
    (Chan.make 2) {| tp_machine := machine0 |} = Hung.
Proof.
  refine (proj2
    (hung_command_hangs_the_loop
       (start {| unread := "top" ++ nl ++ "exit" ++ nl |} buffer0 buffer0
          (Chan.make 2) {| tp_machine := machine0 |})
       {| written := "/home/ada [ada] $ " |} ("top" ++ nl)
       {| unread := "exit" ++ nl |} "top" [] 4 _ _ _ _ _ _)); try reflexivity.
  simpl. intros [E|[E|[E|[E|[E|[E|[E|[E|[]]]]]]]]]; discriminate E.
Defined.

(** [env FOO BAR] where [FOO] is set to [bar] and [BAR] is not set. *)
Lemma env_prints_and_never_fails_witness :
  snd (EnvironmentVariables buffer0 ["FOO"; "BAR"] machine0) =
  {| written :=
       "FOO=bar" ++ nl ++ "BAR not found in environment variables" ++ nl |}.
Proof.
  refine (proj2 (proj2 (proj2
    (env_prints_and_never_fails buffer0 ["FOO"; "BAR"] machine0)) _)
    ["FOO=bar" ++ nl; "BAR not found in environment variables" ++ nl] _).
  - discriminate.
  - constructor.
    + left. exists "bar". split; [|reflexivity].
      exists [("HOME", "/home/ada")], []. split; [reflexivity|].
      simpl. intros [E|[]]. discriminate E.
    + constructor; [|constructor].
      right. split; [|reflexivity].
      simpl. intros [E|[E|[]]]; discriminate E.
Defined.

(** [echo] with three arguments, on a buffer. *)
Lemma echo_prints_joined_arguments_witness :
  Echo buffer0 ["one"; "two"; "three"] =
  (None, {| written := "one two three" ++ nl |}).
Proof.
  exact (proj1 (echo_prints_joined_arguments buffer0 ["one"; "two"; "three"])).
Defined.
